(** * Verification of [scripts/generate-og-images.py]

    A shallow embedding of the Open Graph image generator: the colour
    parser [hex_to_rgb], the gradient builder [create_gradient], the font
    resolver [get_font], the decoration and assembly steps and the batch
    driver [main], together with the pieces of the Python runtime and of
    the imaging library (PIL) that the script relies on. *)

From Stdlib Require Import ZArith QArith Qround Qpower Qabs.
From Stdlib Require Import List String Ascii Bool Lia Lqa DecimalString.
From Stdlib Require Floats.SpecFloat.
Import ListNotations.

Set Implicit Arguments.

(* ===================================================================== *)
(** * Python runtime: exceptions and results                              *)
(* ===================================================================== *)

(** The exception classes that can travel through the script.  [IOError]
    is an alias of [OSError] in Python 3, so the handler
    [except (IOError, OSError)] catches exactly [OSError].
    [UnicodeEncodeError] is what [print] raises on a stream that cannot
    encode a character; no handler of the script catches it. *)
Inductive exn : Type :=
| ValueError
| KeyError
| ZeroDivisionError
| OSError
| UnicodeEncodeError
| OtherError (name : string).

Inductive result (A : Type) : Type :=
| Ok (a : A)
| Raise (e : exn).

Arguments Ok {A} a.
Arguments Raise {A} e.

Definition is_OSError (e : exn) : bool :=
  match e with OSError => true | _ => false end.

Definition rbind {A B : Type} (r : result A) (k : A -> result B) : result B :=
  match r with
  | Ok a => k a
  | Raise e => Raise e
  end.

Declare Scope result_scope.
Delimit Scope result_scope with result.
Notation "'let?' x ':=' r 'in' k" :=
  (rbind r (fun x => k))
    (at level 10, x pattern, r at level 100, k at level 200) : result_scope.

(* ===================================================================== *)
(** * Python runtime: strings and [int(s, 16)]                            *)
(* ===================================================================== *)

Module PyStr.

Open Scope string_scope.
Open Scope Z_scope.

(** A Python [str] is modelled by a Rocq [string]; each character of a
    colour string stands for one code point below 256.  The texts the
    script draws and prints are held as their UTF-8 bytes. *)

Definition code (c : ascii) : Z := Z.of_N (N_of_ascii c).

(** [s.lstrip(c)] for a one-character argument: every leading [c] goes. *)
Fixpoint lstrip (c : ascii) (s : string) : string :=
  match s with
  | String a s' => if Ascii.eqb a c then lstrip c s' else s
  | EmptyString => s
  end.

(** [s[i:i+n]]: slices are clipped to the string, never an error. *)
Definition slice (i n : nat) (s : string) : string := substring i n s.

(** Value of a character as a base-16 digit. *)
Definition hex_digit (c : ascii) : option Z :=
  let n := code c in
  if (48 <=? n) && (n <=? 57) then Some (n - 48)
  else if (65 <=? n) && (n <=? 70) then Some (n - 55)
  else if (97 <=? n) && (n <=? 102) then Some (n - 87)
  else None.

Definition is_hex (c : ascii) : bool :=
  match hex_digit c with Some _ => true | None => false end.

(** White space as [int()] sees it (code points below 256): tab to
    carriage return and the space, and the two white-space characters
    above 127, which [int()] turns into spaces before it parses.  The
    separators 28 to 31 are white space for [str.strip] but not for
    [int()]. *)
Definition is_space (c : ascii) : bool :=
  let n := code c in
  ((9 <=? n) && (n <=? 13)) || (n =? 32) || (n =? 133) || (n =? 160).

Fixpoint lstrip_space (s : string) : string :=
  match s with
  | String a s' => if is_space a then lstrip_space s' else s
  | EmptyString => s
  end.

Fixpoint rev_string (acc s : string) : string :=
  match s with
  | String a s' => rev_string (String a acc) s'
  | EmptyString => acc
  end.

Definition strip_space (s : string) : string :=
  rev_string "" (lstrip_space (rev_string "" (lstrip_space s))).

(** The digits of a literal: at least one digit, single underscores
    allowed between digits only.  [scan acc s] runs after a digit. *)
Fixpoint scan (acc : Z) (s : string) : option Z :=
  match s with
  | EmptyString => Some acc
  | String c s' =>
      if Ascii.eqb c "_" then
        match s' with
        | String d s'' =>
            match hex_digit d with
            | Some v => scan (16 * acc + v) s''
            | None => None
            end
        | EmptyString => None
        end
      else
        match hex_digit c with
        | Some v => scan (16 * acc + v) s'
        | None => None
        end
  end.

Definition digits (s : string) : option Z :=
  match s with
  | String c s' =>
      match hex_digit c with
      | Some v => scan v s'
      | None => None
      end
  | EmptyString => None
  end.

(** An optional [0x] / [0X] prefix, with one underscore allowed after it. *)
Definition skip_prefix (s : string) : string :=
  match s with
  | String "0" (String x s') =>
      if Ascii.eqb x "x" || Ascii.eqb x "X" then
        match s' with
        | String "_" s'' => s''
        | _ => s'
        end
      else s
  | _ => s
  end.

(** [int(s, 16)]: surrounding white space, an optional sign, an optional
    prefix, then the digits; [ValueError] on anything else. *)
Definition int16 (s : string) : result Z :=
  let s := strip_space s in
  let '(neg, s) :=
    match s with
    | String "+" s' => (false, s')
    | String "-" s' => (true, s')
    | _ => (false, s)
    end in
  match digits (skip_prefix s) with
  | Some v => Ok (if neg then - v else v)
  | None => Raise ValueError
  end.

End PyStr.

(* ===================================================================== *)
(** * Colour parsing                                                      *)
(* ===================================================================== *)

Open Scope string_scope.
Open Scope Z_scope.

Definition rgb : Type := (Z * Z * Z)%type.

(** [hex_to_rgb]: strip the leading ['#'] characters, then read the
    slices [0:2], [2:4] and [4:6] in base 16, in that order. *)
Definition hex_to_rgb (hex_color : string) : result rgb :=
  let hex_color := PyStr.lstrip "#" hex_color in
  (let? r := PyStr.int16 (PyStr.slice 0 2 hex_color) in
   let? g := PyStr.int16 (PyStr.slice 2 2 hex_color) in
   let? b := PyStr.int16 (PyStr.slice 4 2 hex_color) in
   Ok (r, g, b))%result.

(** Modelled from the spec: [toHex], the standard hex formatter of an RGB
    triple, which the repository does not define.  It writes ['#'] and two
    base-16 digits per channel, upper case as in the colour table of the
    script or lower case. *)
Definition hex_char (upper : bool) (v : Z) : ascii :=
  let table := if upper then "0123456789ABCDEF" else "0123456789abcdef" in
  match String.get (Z.to_nat v) table with
  | Some c => c
  | None => "?"%char
  end.

Definition hex_byte (upper : bool) (v : Z) : string :=
  String (hex_char upper (v / 16)) (String (hex_char upper (v mod 16)) "").

Definition toHex (upper : bool) (c : rgb) : string :=
  let '(r, g, b) := c in
  String "#" (hex_byte upper r ++ hex_byte upper g ++ hex_byte upper b).

Definition channel_ok (v : Z) : Prop := 0 <= v <= 255.

Definition rgb_ok (c : rgb) : Prop :=
  let '(r, g, b) := c in channel_ok r /\ channel_ok g /\ channel_ok b.

(** The spec's input contract: seven characters, ['#'] then six digits. *)
Definition valid_hex7 (s : string) : bool :=
  match s with
  | String "#" (String a (String b (String c (String d (String e (String f ""))))))
    => forallb PyStr.is_hex [a; b; c; d; e; f]
  | _ => false
  end.

(* ===================================================================== *)
(** * Python runtime: floats                                              *)
(* ===================================================================== *)

(** A Python [float] is an IEEE 754 binary64 number.  The finite ones are
    modelled by the rational they denote, and each arithmetic operation
    returns the exact result rounded to nearest, ties to even, on the
    binary64 grid: 53 significant bits, smallest exponent -1074.  Overflow
    is out of reach here: every value the script computes is below 1024 in
    magnitude. *)
Module PyFloat.

Open Scope Q_scope.

Definition prec : Z := 53.
Definition emin : Z := -1074.

Definition pow2 (e : Z) : Q := (2 # 1) ^ e.

(** [ilog2 q] is the exponent of [q]: [2^e <= |q| < 2^(e+1)], [q <> 0]. *)
Definition ilog2 (q : Q) : Z :=
  let e0 := (Z.log2 (Z.abs (Qnum q)) - Z.log2 (Zpos (Qden q)))%Z in
  if Qle_bool (pow2 e0) (Qabs q) then e0 else (e0 - 1)%Z.

(** Exponent of the last place of the format at [q]. *)
Definition cexp (q : Q) : Z := Z.max (ilog2 q - (prec - 1)) emin.

(** Nearest integer, ties to even. *)
Definition rne (m : Q) : Z :=
  let f := Qfloor m in
  match Qcompare (m - inject_Z f) (1 # 2) with
  | Lt => f
  | Gt => (f + 1)%Z
  | Eq => if Z.even f then f else (f + 1)%Z
  end.

(** Rounding of an exact result to a float. *)
Definition RN (q : Q) : Q :=
  if Qeq_bool q 0 then 0
  else inject_Z (rne (q / pow2 (cexp q))) * pow2 (cexp q).

(** [float(z)], the conversion applied to an [int] operand. *)
Definition of_int (z : Z) : Q := RN (inject_Z z).

(** [a / b] on two [int]s: the correctly rounded quotient ([b <> 0]). *)
Definition int_div (a b : Z) : Q := RN (inject_Z a / inject_Z b).

Definition mul (a b : Q) : Q := RN (a * b).
Definition add (a b : Q) : Q := RN (a + b).

(** [int(x)]: truncation toward zero. *)
Definition to_int (q : Q) : Z :=
  if Qle_bool 0 q then Qfloor q else Qceiling q.

(** The same operations in the Standard Library's IEEE 754 model, to
    compare the two on samples. *)
Definition SF2Q (f : SpecFloat.spec_float) : option Q :=
  match f with
  | SpecFloat.S754_zero _ => Some 0
  | SpecFloat.S754_finite s m e =>
      Some ((if s then -1 else 1) * inject_Z (Zpos m) * pow2 e)
  | _ => None
  end.

Definition sf_of_int (z : Z) : SpecFloat.spec_float :=
  SpecFloat.binary_normalize 53 1024 z 0 false.

Definition sf_lerp (c1 c2 x w : Z) : SpecFloat.spec_float :=
  SpecFloat.SFadd 53 1024 (sf_of_int c1)
    (SpecFloat.SFmul 53 1024 (sf_of_int (c2 - c1))
       (SpecFloat.SFdiv 53 1024 (sf_of_int x) (sf_of_int w))).

End PyFloat.

(** [r1 + (r2 - r1) * ratio], before and after [int(...)]. *)
Definition fsum (c1 c2 : Z) (ratio : Q) : Q :=
  PyFloat.add (PyFloat.of_int c1) (PyFloat.mul (PyFloat.of_int (c2 - c1)) ratio).

Definition lerp (c1 c2 : Z) (ratio : Q) : Z := PyFloat.to_int (fsum c1 c2 ratio).

(** The interpolation of the spec, in exact arithmetic. *)
Definition exact_lerp (c1 c2 x w : Z) : Q :=
  (inject_Z c1 + inject_Z (c2 - c1) * (inject_Z x / inject_Z w))%Q.

(** Integers the float format holds exactly, with room for a sum. *)
Definition small (z : Z) : Prop := Z.abs z <= 2 ^ 52.

(** [range(n)]. *)
Definition range (n : Z) : list Z := map Z.of_nat (seq 0 (Z.to_nat n)).

(* ===================================================================== *)
(** * Effects: a trace of what the program does                           *)
(* ===================================================================== *)

(** The imaging library: data. *)
Module PIL.

Inductive mode : Type := RGB | RGBA.

(** A pixel holds red, green, blue and alpha; the alpha of a pixel of an
    [RGB] image is not part of the image and is kept at 255. *)
Definition pixel : Type := (Z * Z * Z * Z)%type.

Definition point : Type := (Z * Z)%type.
Definition box : Type := (Z * Z * Z * Z)%type.

Record image : Type := mkImage {
  im_mode : mode;
  im_width : Z;
  im_height : Z;
  im_px : Z -> Z -> pixel
}.

(** The [fill] arguments the script passes: a 3-tuple, a 4-tuple or the
    colour name ['white']. *)
Inductive fill : Type :=
| Fill3 (r g b : Z)
| Fill4 (r g b a : Z)
| FillWhite.

Inductive font : Type :=
| TrueType (path : string) (size : Z)
| DefaultFont.

(** How [im.save(path)] can end: the file is written; or the call raises
    before the target is opened, and nothing on disk changes; or it
    raises after the target was opened for writing, and the file is left
    truncated, partial or removed. *)
Inductive saving : Type :=
| Saved
| Refused (e : exn)
| Broken (e : exn).

(** Calls into the library, as the script makes them.  [CDraw m] is
    [ImageDraw.Draw(im)] on an image of mode [m]. *)
Inductive call : Type :=
| CNew (m : mode) (w h : Z)
| CDraw (m : mode)
| CLine (p0 p1 : point) (f : fill) (width : Z)
| CPoint (p : point) (f : fill)
| CEllipse (b : box) (f : fill)
| CConvert (m : mode)
| CComposite
| CTruetype (path : string) (size : Z)
| CLoadDefault
| CTextBBox (p : point) (text : string) (f : font)
| CText (p : point) (text : string) (fl : fill) (f : font)
| CSave (path : string).

(** What the script cannot decide by itself: which font files load,
    how the library rasterises text, ellipses and wide lines, how it
    blends two pixels, how a save ends, and whether standard output
    takes a line. *)
Record Env : Type := mkEnv {
  truetype_error : string -> Z -> option exn;
  text_error : font -> string -> option exn;
  text_extent : font -> string -> box;
  text_px : font -> string -> point -> pixel -> (Z -> Z -> pixel) -> Z -> Z -> pixel;
  wide_line : point -> point -> Z -> Z -> Z -> bool;
  skew_line : point -> point -> Z -> Z -> bool;
  ellipse_cover : box -> Z -> Z -> bool;
  composite_px : pixel -> pixel -> pixel;
  save_result : string -> image -> saving;
  print_error : string -> option exn
}.

Definition clip8 (v : Z) : Z := Z.max 0 (Z.min 255 v).

(** The ink a fill becomes on an image of mode [m]. *)
Definition ink (m : mode) (f : fill) : pixel :=
  match f with
  | Fill3 r g b => (clip8 r, clip8 g, clip8 b, 255)
  | Fill4 r g b a =>
      (clip8 r, clip8 g, clip8 b, match m with RGBA => clip8 a | RGB => 255 end)
  | FillWhite => (255, 255, 255, 255)
  end.

Definition in_image (im : image) (x y : Z) : bool :=
  (0 <=? x) && (x <? im_width im) && (0 <=? y) && (y <? im_height im).

(** [ImageDraw.Draw(im)] without a mode does not blend: the ink replaces
    the pixels it covers, alpha included. *)
Definition paint (cover : Z -> Z -> bool) (p : pixel) (im : image) : image :=
  mkImage (im_mode im) (im_width im) (im_height im)
    (fun x y => if in_image im x y && cover x y then p else im_px im x y).

Definition between (a b v : Z) : bool :=
  (Z.min a b <=? v) && (v <=? Z.max a b).

(** Pixels of a line: both end points included for a line of width 0 or
    1 along an axis; the library decides for the others. *)
Definition line_cover (E : Env) (p0 p1 : point) (width : Z) (x y : Z) : bool :=
  let '(x0, y0) := p0 in
  let '(x1, y1) := p1 in
  if width <=? 1 then
    if x0 =? x1 then (x =? x0) && between y0 y1 y
    else if y0 =? y1 then (y =? y0) && between x0 x1 x
    else skew_line E p0 p1 x y
  else wide_line E p0 p1 width x y.

Definition getpixel (im : image) (x y : Z) : option pixel :=
  if in_image im x y then Some (im_px im x y) else None.

End PIL.

Import PIL.

(** What a run leaves behind: a call into the library; a line written to
    standard output; a [print] that raised (how much of the line reached
    the stream is not recorded); a complete image file; a file that a
    failed save left damaged. *)
Inductive event : Type :=
| Call (c : call)
| Print (line : string)
| PrintFails (line : string)
| Write (path : string) (img : image)
| Damage (path : string).

(** A computation returns or raises, and leaves the trace of its calls,
    prints and file writes.  The script reads no file, clock or random
    source: its input is the environment alone. *)
Definition M (A : Type) : Type := (list event * result A)%type.

Definition ret {A : Type} (a : A) : M A := ([], Ok a).

Definition bind {A B : Type} (m : M A) (k : A -> M B) : M B :=
  match m with
  | (l, Ok a) => let '(l', r) := k a in ((l ++ l')%list, r)
  | (l, Raise e) => (l, Raise e)
  end.

Definition emit (ev : event) : M unit := ([ev], Ok tt).

Definition raise {A : Type} (e : exn) : M A := ([], Raise e).

Definition lift {A : Type} (r : result A) : M A := ([], r).

(** [try: m  except (IOError, OSError): handler]. *)
Definition try_except_OSError {A : Type} (m handler : M A) : M A :=
  match m with
  | (l, Raise e) =>
      if is_OSError e then let '(l', r) := handler in ((l ++ l')%list, r) else m
  | _ => m
  end.

Declare Scope m_scope.
Delimit Scope m_scope with M.
Notation "x <- m ;; k" := (bind m (fun x => k))
  (at level 61, m at next level, right associativity) : m_scope.
Notation "' pat <- m ;; k" := (bind m (fun x => match x with pat => k end))
  (at level 61, pat pattern, m at next level, right associativity) : m_scope.
Notation "m ;; k" := (bind m (fun _ => k))
  (at level 61, right associativity) : m_scope.
Open Scope m_scope.

(** [for x in xs: s = body(x, s)]. *)
Fixpoint for_each {A S : Type} (xs : list A) (body : A -> S -> M S) (s : S) : M S :=
  match xs with
  | [] => ret s
  | x :: xs' => s' <- body x s ;; for_each xs' body s'
  end.

Definition str (z : Z) : string := NilZero.string_of_int (Z.to_int z).

(** [a % b] on [int]s. *)
Definition py_mod (a b : Z) : M Z :=
  if b =? 0 then raise ZeroDivisionError else ret (a mod b).

(** [os.path.join(a, b)] and [os.path.basename(p)] on POSIX. *)
Definition ends_with_slash (s : string) : bool :=
  match PyStr.rev_string "" s with
  | String "/" _ => true
  | _ => false
  end.

Definition path_join (a b : string) : string :=
  match b with
  | String "/" _ => b
  | _ => if (a =? "")%string || ends_with_slash a then a ++ b else a ++ "/" ++ b
  end.

Fixpoint basename_from (acc s : string) : string :=
  match s with
  | EmptyString => acc
  | String c s' =>
      if Ascii.eqb c "/" then basename_from s' s' else basename_from acc s'
  end.

Definition basename (p : string) : string := basename_from p p.

(* ===================================================================== *)
(** * The script                                                          *)
(* ===================================================================== *)

Definition WIDTH : Z := 1200.
Definition HEIGHT : Z := 630.

Definition COLORS : list (string * string) :=
  [ ("primary", "#2563EB");
    ("secondary", "#7C3AED");
    ("orange", "#F97316");
    ("white", "#FFFFFF");
    ("dark", "#1F2937");
    ("light_bg", "#F8FAFC") ].

Record FormatSpec : Type := mkFormat {
  filename : string;
  title : string;
  subtitle : string;
  tagline : string;
  gradient : string * string;
  icon : string
}.

(** The table, in the order it is written: a [dict] iterates in insertion
    order. *)
Definition FORMATS : list (string * FormatSpec) :=
  [ ("main",
     mkFormat "og-image.png" "UberPadel" "Tournament Manager"
       "Create & manage padel tournaments instantly"
       ("#2563EB", "#7C3AED") "●");
    ("americano",
     mkFormat "og-image-americano.png" "Americano Padel" "Rotating Partners"
       "Everyone plays with everyone • 5-24 players"
       ("#7C3AED", "#8B5CF6") "◐");
    ("mexicano",
     mkFormat "og-image-mexicano.png" "Mexicano Padel" "Dynamic Matchups"
       "Pairings based on standings • Competitive format"
       ("#059669", "#10B981") "◆");
    ("mix",
     mkFormat "og-image-mix.png" "Mix Tournament" "20-28 Players"
       "Large group format with rest rotation"
       ("#2563EB", "#3B82F6") "★");
    ("team",
     mkFormat "og-image-team.png" "Team League" "Fixed Teams"
       "League format with group stages & knockouts"
       ("#DC2626", "#EF4444") "▲") ].

(** [FORMATS[format_key]]. *)
Fixpoint lookup (table : list (string * FormatSpec)) (key : string) : M FormatSpec :=
  match table with
  | [] => raise KeyError
  | (k, v) :: rest => if (k =? key)%string then ret v else lookup rest key
  end.

Section Script.

Variable E : Env.

(** ** Library calls *)

(** [print(line)]: the line goes to standard output, or the stream
    refuses it and [print] raises. *)
Definition print (line : string) : M unit :=
  match print_error E line with
  | Some e => emit (PrintFails line) ;; raise e
  | None => emit (Print line)
  end.

Definition Image_new (m : mode) (w h : Z) (color : pixel) : M image :=
  emit (Call (CNew m w h)) ;;
  if (w <? 0) || (h <? 0) then raise ValueError
  else ret (mkImage m w h (fun _ _ => color)).

(** [ImageDraw.Draw(im)]: a drawing handle on [im], in the mode of the
    image; nothing is drawn yet. *)
Definition ImageDraw_Draw (im : image) : M unit :=
  emit (Call (CDraw (im_mode im))).

Definition draw_line (im : image) (p0 p1 : point) (f : fill) (width : Z) : M image :=
  emit (Call (CLine p0 p1 f width)) ;;
  ret (paint (line_cover E p0 p1 width) (ink (im_mode im) f) im).

Definition draw_point (im : image) (p : point) (f : fill) : M image :=
  emit (Call (CPoint p f)) ;;
  ret (paint (fun x y => (x =? fst p) && (y =? snd p)) (ink (im_mode im) f) im).

Definition draw_ellipse (im : image) (b : box) (f : fill) : M image :=
  emit (Call (CEllipse b f)) ;;
  ret (paint (ellipse_cover E b) (ink (im_mode im) f) im).

Definition textbbox (im : image) (p : point) (text : string) (f : font) : M box :=
  emit (Call (CTextBBox p text f)) ;;
  match text_error E f text with
  | Some e => raise e
  | None =>
      let '(l, t, r, b) := text_extent E f text in
      ret (l + fst p, t + snd p, r + fst p, b + snd p)
  end.

(** Pixels after a text is drawn: the library decides inside the image. *)
Definition text_image (im : image) (p : point) (text : string) (fl : fill) (f : font)
  : image :=
  mkImage (im_mode im) (im_width im) (im_height im)
    (fun x y =>
       if in_image im x y
       then text_px E f text p (ink (im_mode im) fl) (im_px im) x y
       else im_px im x y).

Definition draw_text (im : image) (p : point) (text : string) (fl : fill) (f : font)
  : M image :=
  emit (Call (CText p text fl f)) ;;
  match text_error E f text with
  | Some e => raise e
  | None => ret (text_image im p text fl f)
  end.

(** [im.convert(m)]: to [RGBA] the alpha becomes 255; to [RGB] the alpha
    band is dropped, nothing is blended. *)
Definition convert_image (im : image) (m : mode) : image :=
  mkImage m (im_width im) (im_height im)
    (fun x y =>
       let '(r, g, b, a) := im_px im x y in
       match m, im_mode im with
       | RGBA, RGBA => (r, g, b, a)
       | _, _ => (r, g, b, 255)
       end).

Definition convert (im : image) (m : mode) : M image :=
  emit (Call (CConvert m)) ;; ret (convert_image im m).

Definition is_RGBA (m : mode) : bool :=
  match m with RGBA => true | RGB => false end.

Definition composite_image (im1 im2 : image) : image :=
  mkImage RGBA (im_width im1) (im_height im1)
    (fun x y => composite_px E (im_px im1 x y) (im_px im2 x y)).

(** [Image.alpha_composite(im1, im2)]: both images [RGBA], same size. *)
Definition alpha_composite (im1 im2 : image) : M image :=
  emit (Call CComposite) ;;
  if is_RGBA (im_mode im1) && is_RGBA (im_mode im2)
     && (im_width im1 =? im_width im2) && (im_height im1 =? im_height im2)
  then ret (composite_image im1 im2)
  else raise ValueError.

Definition save (im : image) (path : string) : M unit :=
  emit (Call (CSave path)) ;;
  match save_result E path im with
  | Saved => emit (Write path im)
  | Refused e => raise e
  | Broken e => emit (Damage path) ;; raise e
  end.

Definition truetype (path : string) (size : Z) : M font :=
  emit (Call (CTruetype path size)) ;;
  match truetype_error E path size with
  | Some e => raise e
  | None => ret (TrueType path size)
  end.

Definition load_default : M font :=
  emit (Call CLoadDefault) ;; ret DefaultFont.

(** ** [create_gradient] *)

Definition create_gradient (width height : Z) (color1 color2 : string)
           (direction : string) : M image :=
  img <- Image_new RGB width height (0, 0, 0, 255) ;;
  ImageDraw_Draw img ;;
  '(r1, g1, b1) <- lift (hex_to_rgb color1) ;;
  '(r2, g2, b2) <- lift (hex_to_rgb color2) ;;
  if (direction =? "horizontal")%string then
    for_each (range width)
      (fun x img =>
         let ratio := PyFloat.int_div x width in
         let r := lerp r1 r2 ratio in
         let g := lerp g1 g2 ratio in
         let b := lerp b1 b2 ratio in
         draw_line img (x, 0) (x, height) (Fill3 r g b) 0)
      img
  else
    for_each (range width)
      (fun x img =>
         for_each (range height)
           (fun y img =>
              let ratio := PyFloat.int_div (x + y) (width + height) in
              let r := lerp r1 r2 ratio in
              let g := lerp g1 g2 ratio in
              let b := lerp b1 b2 ratio in
              draw_point img (x, y) (Fill3 r g b))
           img)
      img.

(** ** [get_font] *)

Definition font_names (bold : bool) : list string :=
  [ if bold then "/usr/share/fonts/truetype/dejavu/DejaVuSans-Bold.ttf"
    else "/usr/share/fonts/truetype/dejavu/DejaVuSans.ttf";
    if bold then "/usr/share/fonts/truetype/liberation/LiberationSans-Bold.ttf"
    else "/usr/share/fonts/truetype/liberation/LiberationSans-Regular.ttf" ].

(** The loop over the candidates: the first that loads is returned, an
    [OSError] moves on to the next, and the built-in font ends the list. *)
Fixpoint try_fonts (names : list string) (size : Z) : M font :=
  match names with
  | [] => load_default
  | font_name :: rest =>
      try_except_OSError (truetype font_name size) (try_fonts rest size)
  end.

Definition get_font (size : Z) (bold : bool) : M font :=
  try_fonts (font_names bold) size.

(** ** [add_decorative_elements] *)

Definition add_decorative_elements (img : image) (width height : Z) : M image :=
  img <- for_each (range 20)
           (fun i img =>
              m <- py_mod (i * 150) width ;;
              let x := m + 50 in
              y <- py_mod (i * 80) height ;;
              let radius := 3 + i mod 3 in
              draw_ellipse img (x - radius, y - radius, x + radius, y + radius)
                (Fill4 255 255 255 30))
           img ;;
  let line_color := Fill4 255 255 255 40 in
  img <- draw_line img (100, height / 2) (width - 100, height / 2) line_color 2 ;;
  draw_line img (width / 2, 100) (width / 2, height - 100) line_color 2.

(** ** [create_og_image] *)

(** One centred text: measure at the origin, then draw. *)
Definition centered_text (img : image) (text : string) (y : Z) (fl : fill) (f : font)
  : M image :=
  '(l, _, r, _) <- textbbox img (0, 0) text f ;;
  let text_width := r - l in
  draw_text img ((WIDTH - text_width) / 2, y) text fl f.

Definition accent_color : fill := Fill4 255 255 255 100.

Definition corner_accents (img : image) : M image :=
  img <- draw_line img (0, 0) (80, 0) accent_color 4 ;;
  img <- draw_line img (0, 0) (0, 80) accent_color 4 ;;
  img <- draw_line img (WIDTH - 80, 0) (WIDTH, 0) accent_color 4 ;;
  img <- draw_line img (WIDTH - 1, 0) (WIDTH - 1, 80) accent_color 4 ;;
  img <- draw_line img (0, HEIGHT - 1) (80, HEIGHT - 1) accent_color 4 ;;
  img <- draw_line img (0, HEIGHT - 80) (0, HEIGHT) accent_color 4 ;;
  img <- draw_line img (WIDTH - 80, HEIGHT - 1) (WIDTH, HEIGHT - 1) accent_color 4 ;;
  draw_line img (WIDTH - 1, HEIGHT - 80) (WIDTH - 1, HEIGHT) accent_color 4.

Definition create_og_image (format_key output_dir : string) : M string :=
  config <- lookup FORMATS format_key ;;
  img <- create_gradient WIDTH HEIGHT (fst (gradient config)) (snd (gradient config))
           "horizontal" ;;
  ImageDraw_Draw img ;;
  img <- add_decorative_elements img WIDTH HEIGHT ;;
  overlay <- Image_new RGBA WIDTH HEIGHT (0, 0, 0, 60) ;;
  rgba <- convert img RGBA ;;
  img <- alpha_composite rgba overlay ;;
  ImageDraw_Draw img ;;
  font_title <- get_font 72 true ;;
  font_subtitle <- get_font 42 true ;;
  font_tagline <- get_font 28 false ;;
  font_icon <- get_font 60 true ;;
  font_brand <- get_font 24 true ;;
  let center_y := HEIGHT / 2 in
  img <- centered_text img (icon config) (center_y - 150) FillWhite font_icon ;;
  img <- centered_text img (title config) (center_y - 60) FillWhite font_title ;;
  img <- centered_text img (subtitle config) (center_y + 30)
           (Fill4 255 255 255 220) font_subtitle ;;
  img <- centered_text img (tagline config) (center_y + 100)
           (Fill4 255 255 255 180) font_tagline ;;
  let brand_text := "uberpadel.com" in
  img <- centered_text img brand_text (HEIGHT - 50) (Fill4 255 255 255 150) font_brand ;;
  img <- corner_accents img ;;
  let output_path := path_join output_dir (filename config) in
  flat <- convert img RGB ;;
  save flat output_path ;;
  print ("✅ Created " ++ filename config) ;;
  ret output_path.

(** ** [main] *)

Definition output_dir : string := "/home/claude/Tournament-main-15".

Definition generate_all (keys : list string) : M (list string) :=
  for_each keys
    (fun format_key created_files =>
       path <- create_og_image format_key output_dir ;;
       ret (created_files ++ [path])%list)
    [].

Definition main : M unit :=
  print "🎨 Generating OG images for social sharing..." ;;
  print ("   Size: " ++ str WIDTH ++ "x" ++ str HEIGHT ++ "px") ;;
  print "" ;;
  created_files <- generate_all (map fst FORMATS) ;;
  print "" ;;
  print ("✅ Created " ++ str (Z.of_nat (List.length created_files)) ++ " OG images!") ;;
  print "" ;;
  print "Files created:" ;;
  for_each created_files (fun f _ => print ("   - " ++ basename f)) tt.

End Script.

(** ** Colour strings *)

Definition all_ascii : list ascii := map ascii_of_nat (seq 0 256).

Definition hex_val (c : ascii) : Z :=
  match PyStr.hex_digit c with Some v => v | None => 0 end.

Definition hex_pair (a b : ascii) : Z := 16 * hex_val a + hex_val b.

Fixpoint hashes (n : nat) : string :=
  match n with
  | O => ""
  | S k => String "#" (hashes k)
  end.

Definition six (a b c d e f : ascii) : string :=
  String a (String b (String c (String d (String e (String f ""))))).

Definition pair_check (a b : ascii) : bool :=
  if PyStr.is_hex a && PyStr.is_hex b then
    match PyStr.int16 (String a (String b "")) with
    | Ok v => (v =? hex_pair a b) && (0 <=? v) && (v <=? 255)
    | Raise _ => false
    end
  else true.

Definition byte_check (upper : bool) (v : Z) : bool :=
  match PyStr.int16 (hex_byte upper v) with
  | Ok w => (w =? v) && negb (Ascii.eqb (hex_char upper (v / 16)) "#")
  | Raise _ => false
  end.

(** ** Gradient columns *)

(** The channel value the gradient loop computes at column [x]. *)
Definition column_channel (c1 c2 x width : Z) : Z :=
  lerp c1 c2 (PyFloat.int_div x width).

Definition column_fill (A B : rgb) (x width : Z) : fill :=
  let '(r1, g1, b1) := A in
  let '(r2, g2, b2) := B in
  Fill3 (column_channel r1 r2 x width) (column_channel g1 g2 x width)
        (column_channel b1 b2 x width).

(** One turn of the gradient loop on the image. *)
Definition paint_column (E : Env) (height : Z) (f : Z -> fill) (im : image) (x : Z) : image :=
  paint (line_cover E (x, 0) (x, height) 0) (ink (im_mode im) (f x)) im.

(** The pixel of column [x] of a gradient from [A] to [B]. *)
Definition gradient_pixel (A B : rgb) (x width : Z) : pixel :=
  let '(r1, g1, b1) := A in
  let '(r2, g2, b2) := B in
  (column_channel r1 r2 x width, column_channel g1 g2 x width,
   column_channel b1 b2 x width, 255).

(** The start and end value of each of the three channels. *)
Definition channels (A B : rgb) : list (Z * Z) :=
  let '(r1, g1, b1) := A in
  let '(r2, g2, b2) := B in
  [(r1, r2); (g1, g2); (b1, b2)].


(** Distance the last column may keep from the end colour: the whole
    steps of the channel per column, and one. *)
Definition last_gap (c1 c2 width : Z) : Z := Z.abs (c2 - c1) / width + 1.

(** A channel that changes by less than one step per column. *)
Definition gentle (width : Z) (c : Z * Z) : Prop := Z.abs (snd c - fst c) < width.

Definition within_rounding (a b : Z) : Prop := Z.abs (a - b) <= 1.

Definition rgb_list (c : rgb) : list Z := let '(r, g, b) := c in [r; g; b].

Definition pixel_rgb (p : pixel) : rgb := let '(r, g, b, _) := p in (r, g, b).

(** A sample environment for examples: no font file is installed, text
    has no extent and leaves the canvas alone, a wide line covers its
    centre line, an ellipse the centre of its box, a pixel composed over
    an opaque one is the usual weighted mean, every file can be written
    and standard output takes every line. *)
Definition sample_composite (dst src : pixel) : pixel :=
  let '(r, g, b, _) := dst in
  let '(r', g', b', a') := src in
  ((r * (255 - a') + r' * a') / 255, (g * (255 - a') + g' * a') / 255,
   (b * (255 - a') + b' * a') / 255, 255).

Definition centre_line (p0 p1 : point) (x y : Z) : bool :=
  ((x =? fst p0) && (fst p0 =? fst p1) && between (snd p0) (snd p1) y)
  || ((y =? snd p0) && (snd p0 =? snd p1) && between (fst p0) (fst p1) x).

Definition sample_env : Env :=
  mkEnv (fun _ _ => Some OSError)
        (fun _ _ => None)
        (fun _ _ => (0, 0, 0, 0))
        (fun _ _ _ _ px => px)
        (fun p0 p1 _ => centre_line p0 p1)
        (fun _ _ _ _ => false)
        (fun '(x0, y0, x1, y1) x y => (x =? (x0 + x1) / 2) && (y =? (y0 + y1) / 2))
        sample_composite
        (fun _ _ => Saved)
        (fun _ => None).


(** C3 as the spec words it, for the two end columns. *)
Definition ends_within_rounding (img : image) (A B : rgb) (width height : Z) : Prop :=
  forall y, 0 <= y < height ->
    exists p0 p1,
      getpixel img 0 y = Some p0 /\ getpixel img (width - 1) y = Some p1
      /\ Forall2 within_rounding (rgb_list (pixel_rgb p0)) (rgb_list A)
      /\ Forall2 within_rounding (rgb_list (pixel_rgb p1)) (rgb_list B).

(** C3 as the code has it, channel by channel. *)
Definition channel_profile (width : Z) (c : Z * Z) : Prop :=
  let v := column_channel (fst c) (snd c) in
  v 0 width = fst c
  /\ Z.abs (v (width - 1) width - snd c) <= last_gap (fst c) (snd c) width
  /\ (gentle width c -> within_rounding (v (width - 1) width) (snd c))
  /\ (forall x, 0 <= x < width -> Z.min (fst c) (snd c) <= v x width <= Z.max (fst c) (snd c))
  /\ (forall x x', 0 <= x <= x' -> x' < width ->
        (fst c <= snd c -> v x width <= v x' width)
        /\ (snd c <= fst c -> v x' width <= v x width)).

Definition gradient_profile (E : Env) (width height : Z) (color1 color2 : string)
           (A B : rgb) : Prop :=
  exists img,
    snd (create_gradient E width height color1 color2 "horizontal") = Ok img
    /\ (forall x y, 0 <= x < width -> 0 <= y < height ->
          getpixel img x y = Some (gradient_pixel A B x width))
    /\ (forall y, 0 <= y < height ->
          option_map pixel_rgb (getpixel img 0 y) = Some A)
    /\ Forall (channel_profile width) (channels A B)
    /\ (255 < width \/ Forall (gentle width) (channels A B) ->
        ends_within_rounding img A B width height).

(** ** Fonts *)

(** The two candidates of [get_font], by family. *)
Definition dejavu (bold : bool) : string :=
  if bold then "/usr/share/fonts/truetype/dejavu/DejaVuSans-Bold.ttf"
  else "/usr/share/fonts/truetype/dejavu/DejaVuSans.ttf".

Definition liberation (bold : bool) : string :=
  if bold then "/usr/share/fonts/truetype/liberation/LiberationSans-Bold.ttf"
  else "/usr/share/fonts/truetype/liberation/LiberationSans-Regular.ttf".

(** A font file that cannot be opened: [truetype] raises [OSError]. *)
Definition missing (E : Env) (path : string) (size : Z) : Prop :=
  truetype_error E path size = Some OSError.

Definition loads (E : Env) (path : string) (size : Z) : Prop :=
  truetype_error E path size = None.

(** ** Image assembly, step by step *)

(** Standard output takes every line. *)
Definition stdout_ok (E : Env) : Prop := forall line, print_error E line = None.

(** An environment in which a run goes through: a font file loads or is
    missing, text can be rendered, the output files can be written and
    standard output takes every line. *)
Definition healthy (E : Env) : Prop :=
  (forall p s e, truetype_error E p s = Some e -> e = OSError)
  /\ (forall f t, text_error E f t = None)
  /\ (forall p im, save_result E p im = Saved)
  /\ stdout_ok E.

Definition shape (im : image) : mode * Z * Z := (im_mode im, im_width im, im_height im).

(** The value a computation returns, [d] when it raises. *)
Definition value {A : Type} (d : A) (m : M A) : A :=
  match snd m with
  | Ok a => a
  | Raise _ => d
  end.

Definition colour_of (s : string) : rgb := value (0, 0, 0) (lift (hex_to_rgb s)).

Definition start_colour (cfg : FormatSpec) : rgb := colour_of (fst (gradient cfg)).
Definition end_colour (cfg : FormatSpec) : rgb := colour_of (snd (gradient cfg)).

(** *** The calls and the image of each step, written out *)

Definition gradient_calls (A B : rgb) (w h : Z) : list event :=
  Call (CNew RGB w h) :: Call (CDraw RGB)
  :: map (fun x => Call (CLine (x, 0) (x, h) (column_fill A B x w) 0)) (range w).

Definition gradient_image (E : Env) (A B : rgb) (w h : Z) : image :=
  fold_left (paint_column E h (fun x => column_fill A B x w)) (range w)
    (mkImage RGB w h (fun _ _ => (0, 0, 0, 255))).

Definition dot_fill : fill := Fill4 255 255 255 30.
Definition guide_fill : fill := Fill4 255 255 255 40.

Definition dot_box (w h i : Z) : box :=
  let x := (i * 150) mod w + 50 in
  let y := (i * 80) mod h in
  let radius := 3 + i mod 3 in
  (x - radius, y - radius, x + radius, y + radius).

Definition paint_dot (E : Env) (w h : Z) (im : image) (i : Z) : image :=
  paint (ellipse_cover E (dot_box w h i)) (ink (im_mode im) dot_fill) im.

Definition stroke (E : Env) (f : fill) (width : Z) (im : image) (s : point * point) : image :=
  paint (line_cover E (fst s) (snd s) width) (ink (im_mode im) f) im.

Definition guide_lines (w h : Z) : list (point * point) :=
  [ ((100, h / 2), (w - 100, h / 2)); ((w / 2, 100), (w / 2, h - 100)) ].

Definition line_call (f : fill) (width : Z) (s : point * point) : event :=
  Call (CLine (fst s) (snd s) f width).

Definition decor_calls (w h : Z) : list event :=
  (map (fun i => Call (CEllipse (dot_box w h i) dot_fill)) (range 20)
   ++ map (line_call guide_fill 2) (guide_lines w h))%list.

Definition decor_image (E : Env) (w h : Z) (im : image) : image :=
  fold_left (stroke E guide_fill 2) (guide_lines w h)
    (fold_left (paint_dot E w h) (range 20) im).

(** The handle the decorations are drawn through. *)
Definition canvas_handle : list event := [ Call (CDraw RGB) ].

(** The overlay, and the handle on the composed image. *)
Definition overlay_calls : list event :=
  [ Call (CNew RGBA WIDTH HEIGHT); Call (CConvert RGBA); Call CComposite;
    Call (CDraw RGBA) ].

Definition overlay_image (E : Env) (im : image) : image :=
  composite_image E (convert_image im RGBA)
    (mkImage RGBA WIDTH HEIGHT (fun _ _ => (0, 0, 0, 60))).

Definition font_of (E : Env) (size : Z) (bold : bool) : font :=
  value DefaultFont (get_font E size bold).

Definition text_x (E : Env) (f : font) (text : string) : Z :=
  let '(l, _, r, _) := text_extent E f text in (WIDTH - (r - l)) / 2.

(** A text of the layout: the string, its vertical offset, fill and font. *)
Definition label : Type := (string * Z * fill * font)%type.

Definition text_calls (E : Env) (t : label) : list event :=
  let '(text, y, fl, f) := t in
  [ Call (CTextBBox (0, 0) text f); Call (CText (text_x E f text, y) text fl f) ].

Definition text_step (E : Env) (im : image) (t : label) : image :=
  let '(text, y, fl, f) := t in
  text_image E im (text_x E f text, y) text fl f.

Definition layout (E : Env) (cfg : FormatSpec) : list label :=
  [ (icon cfg, HEIGHT / 2 - 150, FillWhite, font_of E 60 true);
    (title cfg, HEIGHT / 2 - 60, FillWhite, font_of E 72 true);
    (subtitle cfg, HEIGHT / 2 + 30, Fill4 255 255 255 220, font_of E 42 true);
    (tagline cfg, HEIGHT / 2 + 100, Fill4 255 255 255 180, font_of E 28 false);
    ("uberpadel.com", HEIGHT - 50, Fill4 255 255 255 150, font_of E 24 true) ].

Definition font_calls (E : Env) : list event :=
  (fst (get_font E 72 true) ++ fst (get_font E 42 true) ++ fst (get_font E 28 false)
   ++ fst (get_font E 60 true) ++ fst (get_font E 24 true))%list.

Definition accent_lines : list (point * point) :=
  [ ((0, 0), (80, 0)); ((0, 0), (0, 80));
    ((WIDTH - 80, 0), (WIDTH, 0)); ((WIDTH - 1, 0), (WIDTH - 1, 80));
    ((0, HEIGHT - 1), (80, HEIGHT - 1)); ((0, HEIGHT - 80), (0, HEIGHT));
    ((WIDTH - 80, HEIGHT - 1), (WIDTH, HEIGHT - 1));
    ((WIDTH - 1, HEIGHT - 80), (WIDTH - 1, HEIGHT)) ].

Definition accent_calls : list event := map (line_call accent_color 4) accent_lines.

(** The canvas before it is saved, and the image that is saved. *)
Definition og_canvas (E : Env) (cfg : FormatSpec) : image :=
  fold_left (stroke E accent_color 4) accent_lines
    (fold_left (text_step E) (layout E cfg)
       (overlay_image E
          (decor_image E WIDTH HEIGHT
             (gradient_image E (start_colour cfg) (end_colour cfg) WIDTH HEIGHT)))).

Definition og_image (E : Env) (cfg : FormatSpec) : image :=
  convert_image (og_canvas E cfg) RGB.

Definition og_path (dir : string) (cfg : FormatSpec) : string :=
  path_join dir (filename cfg).

Definition save_calls (E : Env) (cfg : FormatSpec) (dir : string) : list event :=
  [ Call (CConvert RGB); Call (CSave (og_path dir cfg));
    Write (og_path dir cfg) (og_image E cfg);
    Print ("✅ Created " ++ filename cfg) ].

Definition og_trace (E : Env) (cfg : FormatSpec) (dir : string) : list event :=
  (gradient_calls (start_colour cfg) (end_colour cfg) WIDTH HEIGHT
   ++ canvas_handle
   ++ decor_calls WIDTH HEIGHT
   ++ overlay_calls
   ++ font_calls E
   ++ flat_map (text_calls E) (layout E cfg)
   ++ accent_calls
   ++ save_calls E cfg dir)%list.

(** An environment in which drawing goes through: a font file loads or is
    missing, and text can be rendered.  Saving may still fail. *)
Definition renders (E : Env) : Prop :=
  (forall p s e, truetype_error E p s = Some e -> e = OSError)
  /\ (forall f t, text_error E f t = None).

(** Everything [create_og_image] does before it saves. *)
Definition og_draw_trace (E : Env) (cfg : FormatSpec) : list event :=
  (gradient_calls (start_colour cfg) (end_colour cfg) WIDTH HEIGHT
   ++ canvas_handle
   ++ decor_calls WIDTH HEIGHT
   ++ overlay_calls
   ++ font_calls E
   ++ flat_map (text_calls E) (layout E cfg)
   ++ accent_calls
   ++ [Call (CConvert RGB)])%list.

(** The complete files a trace writes, in order. *)
Definition writes (tr : list event) : list (string * image) :=
  flat_map (fun ev => match ev with Write p im => [(p, im)] | _ => [] end) tr.

(** The files a trace leaves damaged, in order. *)
Definition damages (tr : list event) : list string :=
  flat_map (fun ev => match ev with Damage p => [p] | _ => [] end) tr.

(** What a save that ends as [s] leaves after the call itself. *)
Definition aftermath (s : saving) (path : string) (img : image) : list event :=
  match s with
  | Saved => [Write path img]
  | Refused _ => []
  | Broken _ => [Damage path]
  end.

(** The exception of a save that does not go through. *)
Definition save_exn (s : saving) : option exn :=
  match s with
  | Saved => None
  | Refused e => Some e
  | Broken e => Some e
  end.

Definition is_call (ev : event) : bool :=
  match ev with Call _ => true | _ => false end.

(** The pixels some line of a list covers. *)
Definition lines_cover (E : Env) (width : Z) (ls : list (point * point)) (x y : Z) : bool :=
  existsb (fun s => line_cover E (fst s) (snd s) width x y) ls.

(** The pixels the decorations cover: the twenty dots and the two guides. *)
Definition decor_cover (E : Env) (w h x y : Z) : bool :=
  existsb (fun i => ellipse_cover E (dot_box w h i) x y) (range 20)
  || lines_cover E 2 (guide_lines w h) x y.

Definition white : pixel := (255, 255, 255, 255).

(** What is left to do once the canvas is drawn and flattened. *)
Definition finish (E : Env) (cfg : FormatSpec) (dir : string) : M string :=
  save E (og_image E cfg) (og_path dir cfg) ;;
  print E ("✅ Created " ++ filename cfg) ;;
  ret (og_path dir cfg).


(** ** The batch *)

(** What one image leaves in the trace, and the path it returns. *)
Definition run_trace (E : Env) (key : string) : list event :=
  fst (create_og_image E key output_dir).

Definition run_path (E : Env) (key : string) : string :=
  value "" (create_og_image E key output_dir).

Definition completes (E : Env) (key : string) : Prop :=
  exists p, snd (create_og_image E key output_dir) = Ok p.

Definition banner_lines : list string :=
  [ "🎨 Generating OG images for social sharing...";
    "   Size: 1200x630px";
    "" ].

Definition banner : list event := map Print banner_lines.

Definition report (created_files : list string) : list event :=
  ([ Print "";
     Print ("✅ Created " ++ str (Z.of_nat (List.length created_files)) ++ " OG images!");
     Print "";
     Print "Files created:" ]
   ++ map (fun f => Print ("   - " ++ basename f)) created_files)%list.

(** The lines a trace prints, in order. *)
Definition prints (tr : list event) : list string :=
  flat_map (fun ev => match ev with Print line => [line] | _ => [] end) tr.

(** The end of a successful run of one image. *)
Definition saved (E : Env) (cfg : FormatSpec) : list event :=
  [ Call (CSave (og_path output_dir cfg));
    Write (og_path output_dir cfg) (og_image E cfg);
    Print ("✅ Created " ++ filename cfg) ].

(** ** Edge cases *)

(** An environment whose font files are corrupt for the reader: every
    [truetype] call raises [ValueError]. *)
Definition corrupt_fonts_env : Env :=
  mkEnv (fun _ _ => Some ValueError)
        (text_error sample_env) (text_extent sample_env) (text_px sample_env)
        (wide_line sample_env) (skew_line sample_env) (ellipse_cover sample_env)
        (composite_px sample_env) (save_result sample_env)
        (print_error sample_env).

Definition short_check (a b : ascii) : bool :=
  match PyStr.int16 (String a (String b "")) with
  | Ok v => (-15 <=? v) && (v <=? 255)
  | Raise _ => true
  end.

Definition single_check (a : ascii) : bool :=
  match PyStr.int16 (String a "") with
  | Ok v => (-15 <=? v) && (v <=? 255)
  | Raise _ => true
  end.

Definition channel_range (v : Z) : Prop := -15 <= v <= 255.

(** A two-character literal that [int(s, 16)] reads as [v], for [v] from
    -15 to 255: a sign and one digit, or two digits. *)
Definition literal (v : Z) : string :=
  if v <? 0 then String "-" (String (hex_char true (- v)) "") else hex_byte true v.

(** The colour string whose three slices are the literal of [v]. *)
Definition grey (v : Z) : string := "#" ++ literal v ++ literal v ++ literal v.

Definition grey_check (v : Z) : bool :=
  match hex_to_rgb (grey v) with
  | Ok (r, g, b) => (r =? v) && (g =? v) && (b =? v)
  | Raise _ => false
  end.

(** ** Sample inputs *)

(** The [n]-th entry of the table. *)
Definition entry (n : nat) : string * FormatSpec :=
  nth n FORMATS ("", mkFormat "" "" "" "" ("", "") "").

(** An environment in which the third file of the batch cannot be
    opened for writing; everything else is as in [sample_env]. *)
Definition unwritable_env : Env :=
  mkEnv (truetype_error sample_env)
        (text_error sample_env) (text_extent sample_env) (text_px sample_env)
        (wide_line sample_env) (skew_line sample_env) (ellipse_cover sample_env)
        (composite_px sample_env)
        (fun path _ =>
           if (path =? "/home/claude/Tournament-main-15/og-image-mexicano.png")%string
           then Refused OSError else Saved)
        (print_error sample_env).

(** An environment in which the disk fills up while the third file of
    the batch is written: the file is opened, then the save raises. *)
Definition full_disk_env : Env :=
  mkEnv (truetype_error sample_env)
        (text_error sample_env) (text_extent sample_env) (text_px sample_env)
        (wide_line sample_env) (skew_line sample_env) (ellipse_cover sample_env)
        (composite_px sample_env)
        (fun path _ =>
           if (path =? "/home/claude/Tournament-main-15/og-image-mexicano.png")%string
           then Broken OSError else Saved)
        (print_error sample_env).

(** A line that an ASCII stream can encode. *)
Definition is_ascii (line : string) : bool :=
  forallb (fun c => PyStr.code c <? 128) (list_ascii_of_string line).

(** An environment whose standard output is an ASCII stream: [print]
    raises on a line with any other character; everything else is as in
    [sample_env]. *)
Definition ascii_stdout_env : Env :=
  mkEnv (truetype_error sample_env)
        (text_error sample_env) (text_extent sample_env) (text_px sample_env)
        (wide_line sample_env) (skew_line sample_env) (ellipse_cover sample_env)
        (composite_px sample_env) (save_result sample_env)
        (fun line => if is_ascii line then None else Some UnicodeEncodeError).

Definition black_canvas (w h : Z) : image := mkImage RGB w h (fun _ _ => (0, 0, 0, 255)).

(** ** The diagonal gradient *)

(** One turn of the inner loop of the diagonal gradient. *)
Definition paint_point (f : Z -> fill) (im : image) (p : point) : image :=
  paint (fun x y => (x =? fst p) && (y =? snd p)) (ink (im_mode im) (f (fst p + snd p))) im.

(** The points of a [w] by [h] canvas, column by column. *)
Definition grid (w h : Z) : list point :=
  flat_map (fun x => map (fun y => (x, y)) (range h)) (range w).

Definition diagonal_fill (A B : rgb) (w h s : Z) : fill := column_fill A B s (w + h).

Definition diagonal_calls (A B : rgb) (w h : Z) : list event :=
  Call (CNew RGB w h) :: Call (CDraw RGB)
  :: map (fun p => Call (CPoint p (diagonal_fill A B w h (fst p + snd p)))) (grid w h).

Definition diagonal_image (A B : rgb) (w h : Z) : image :=
  fold_left (paint_point (diagonal_fill A B w h)) (grid w h) (black_canvas w h).

(** ** The float model against the Standard Library *)

(** Does the float model agree with the Standard Library's IEEE 754
    operations on the interpolation of [c1 .. c2] at column [x] of [w]? *)
Definition agrees_with_SpecFloat (c1 c2 w x : Z) : bool :=
  match PyFloat.SF2Q (PyFloat.sf_lerp c1 c2 x w) with
  | Some q => Qeq_bool q (fsum c1 c2 (PyFloat.int_div x w))
  | None => false
  end.

(* ===================================================================== *)
(** * Facts about the float model                                         *)
(* ===================================================================== *)

Module FloatFacts.

Import PyFloat.
#[local] Open Scope Q_scope.

Lemma pow2_pos e : 0 < pow2 e.
Proof. apply Qpower_0_lt. reflexivity. Qed.

Lemma pow2_add a b : pow2 (a + b) == pow2 a * pow2 b.
Proof. apply Qpower_plus. discriminate. Qed.

Lemma pow2_le a b : (a <= b)%Z -> pow2 a <= pow2 b.
Proof. intros H. apply Qpower_le_compat_l; [exact H | discriminate]. Qed.

Lemma pow2_lt a b : (a < b)%Z -> pow2 a < pow2 b.
Proof. intros H. apply Qpower_lt_compat_l; [exact H | reflexivity]. Qed.

Lemma pow2_lt_inv a b : pow2 a < pow2 b -> (a < b)%Z.
Proof. intros H. apply Qpower_lt_compat_l_inv with (q := 2 # 1); [exact H | reflexivity]. Qed.

Lemma pow2_Z e : (0 <= e)%Z -> pow2 e == inject_Z (2 ^ e).
Proof.
  intros H. unfold pow2. rewrite Zpower_Qpower by exact H. reflexivity.
Qed.

Lemma pow2_sub a b : pow2 (a - b) == pow2 a / pow2 b.
Proof.
  unfold Z.sub. rewrite pow2_add. unfold pow2. rewrite Qpower_opp. reflexivity.
Qed.

Lemma pow2_0 : pow2 0 == 1.
Proof. reflexivity. Qed.

Lemma pow2_succ a : pow2 (a + 1) == 2 * pow2 a.
Proof. rewrite pow2_add. change (pow2 1) with (2 # 1). ring. Qed.

Lemma ilog2_spec q : ~ q == 0 -> pow2 (ilog2 q) <= Qabs q /\ Qabs q < pow2 (ilog2 q + 1).
Proof.
  intros Hq. unfold ilog2.
  set (a := Z.abs (Qnum q)). set (b := Zpos (Qden q)).
  assert (Ha : (0 < a)%Z).
  { unfold a. destruct q as [n d]. unfold Qeq in Hq. simpl in *. lia. }
  assert (Hb : (0 < b)%Z) by (unfold b; lia).
  assert (Habs : Qabs q == inject_Z a / inject_Z b).
  { destruct q as [n d]. unfold a, b. simpl. rewrite (Qmake_Qdiv (Z.abs n) d). reflexivity. }
  pose proof (Z.log2_spec a Ha) as [La Ua].
  pose proof (Z.log2_spec b Hb) as [Lb Ub].
  pose proof (Z.log2_nonneg a) as Na. pose proof (Z.log2_nonneg b) as Nb.
  set (la := Z.log2 a) in *. set (lb := Z.log2 b) in *.
  assert (Hib : 0 < inject_Z b) by (change 0 with (inject_Z 0); rewrite <- Zlt_Qlt; lia).
  assert (Hup : Qabs q < pow2 (la - lb + 1)).
  { rewrite Habs. replace (la - lb + 1)%Z with ((la + 1) - lb)%Z by lia.
    rewrite pow2_sub, !pow2_Z by lia.
    apply Qlt_shift_div_r; [exact Hib|].
    assert (H2 : 0 < inject_Z (2 ^ lb)).
    { change 0 with (inject_Z 0); rewrite <- Zlt_Qlt; lia. }
    unfold Qdiv. rewrite <- Qmult_assoc, (Qmult_comm (/ _)), Qmult_assoc.
    apply Qlt_shift_div_l; [exact H2|].
    rewrite <- !inject_Z_mult, <- Zlt_Qlt. replace (Z.succ la) with (la + 1)%Z in Ua by lia. nia. }
  assert (Hlo : pow2 (la - lb - 1) < Qabs q).
  { rewrite Habs. replace (la - lb - 1)%Z with (la - (lb + 1))%Z by lia.
    rewrite pow2_sub, !pow2_Z by lia.
    apply Qlt_shift_div_l; [exact Hib|].
    assert (H2 : 0 < inject_Z (2 ^ (lb + 1))).
    { change 0 with (inject_Z 0); rewrite <- Zlt_Qlt; lia. }
    unfold Qdiv. rewrite <- Qmult_assoc, (Qmult_comm (/ _)), Qmult_assoc.
    apply Qlt_shift_div_r; [exact H2|].
    rewrite <- !inject_Z_mult, <- Zlt_Qlt. replace (Z.succ lb) with (lb + 1)%Z in Ub by lia. nia. }
  destruct (Qle_bool (pow2 (la - lb)) (Qabs q)) eqn:E.
  - apply Qle_bool_iff in E. split; assumption.
  - split.
    + apply Qlt_le_weak. exact Hlo.
    + replace (la - lb - 1 + 1)%Z with (la - lb)%Z by lia.
      apply Qnot_le_lt. intros C. apply Qle_bool_iff in C. congruence.
Qed.

Lemma ilog2_unique q e : pow2 e <= Qabs q -> Qabs q < pow2 (e + 1) -> ilog2 q = e.
Proof.
  intros L U.
  assert (Hq : ~ q == 0).
  { intros C. rewrite C in L. pose proof (pow2_pos e). simpl in L. lra. }
  destruct (ilog2_spec Hq) as [L' U'].
  assert (ilog2 q < e + 1)%Z by (apply pow2_lt_inv; lra).
  assert (e < ilog2 q + 1)%Z by (apply pow2_lt_inv; lra).
  lia.
Qed.

Lemma inj_add1 z : inject_Z (z + 1) == inject_Z z + 1.
Proof. rewrite inject_Z_plus. reflexivity. Qed.

Lemma inj_sub1 z : inject_Z (z - 1) == inject_Z z - 1.
Proof. unfold Z.sub. rewrite inject_Z_plus. reflexivity. Qed.

Lemma Qfloor_bounds m : inject_Z (Qfloor m) <= m /\ m < inject_Z (Qfloor m) + 1.
Proof.
  split; [apply Qfloor_le|].
  pose proof (Qlt_floor m) as H. rewrite inject_Z_plus in H. exact H.
Qed.

Lemma Qfloor_unique m z : inject_Z z <= m -> m < inject_Z z + 1 -> Qfloor m = z.
Proof.
  intros L U. destruct (Qfloor_bounds m) as [L' U'].
  assert (z < Qfloor m + 1)%Z.
  { rewrite Zlt_Qlt, inj_add1. lra. }
  assert (Qfloor m < z + 1)%Z.
  { rewrite Zlt_Qlt, inj_add1. lra. }
  lia.
Qed.

Lemma rne_cases m :
  let f := Qfloor m in
  (m - inject_Z f < 1 # 2 /\ rne m = f) \/
  (1 # 2 < m - inject_Z f /\ rne m = (f + 1)%Z) \/
  (m - inject_Z f == 1 # 2 /\ rne m = if Z.even f then f else (f + 1)%Z).
Proof.
  intros f. unfold rne. fold f.
  destruct (Qcompare (m - inject_Z f) (1 # 2)) eqn:E.
  - right. right. split; [apply Qeq_alt; exact E | reflexivity].
  - left. split; [apply Qlt_alt; exact E | reflexivity].
  - right. left. split; [apply Qgt_alt; exact E | reflexivity].
Qed.

Lemma rne_error m : Qabs (inject_Z (rne m) - m) <= 1 # 2.
Proof.
  destruct (Qfloor_bounds m) as [L U].
  apply Qabs_Qle_condition.
  destruct (rne_cases m) as [[H ->] | [[H ->] | [H ->]]].
  - lra.
  - rewrite inj_add1. lra.
  - destruct (Z.even (Qfloor m)).
    + lra.
    + rewrite inj_add1. lra.
Qed.

Lemma rne_Z z : rne (inject_Z z) = z.
Proof.
  unfold rne. rewrite Qfloor_Z.
  replace (Qcompare (inject_Z z - inject_Z z) (1 # 2)) with Lt; [reflexivity|].
  symmetry. apply (proj1 (Qlt_alt _ _)). lra.
Qed.

Lemma rne_comp m n : m == n -> rne m = rne n.
Proof.
  intros H. unfold rne. rewrite (Qfloor_comp _ _ H).
  replace (Qcompare (n - inject_Z (Qfloor n)) (1 # 2))
    with (Qcompare (m - inject_Z (Qfloor n)) (1 # 2)); [reflexivity|].
  apply Qcompare_comp; [rewrite H|]; reflexivity.
Qed.

Lemma rne_mono m n : m <= n -> (rne m <= rne n)%Z.
Proof.
  intros H.
  pose proof (Qfloor_resp_le _ _ H) as Hf.
  destruct (Qfloor_bounds m) as [Lm Um]. destruct (Qfloor_bounds n) as [Ln Un].
  destruct (Z.eq_dec (Qfloor m) (Qfloor n)) as [E | NE].
  - destruct (rne_cases m) as [[Hm ->] | [[Hm ->] | [Hm ->]]];
      destruct (rne_cases n) as [[Hn ->] | [[Hn ->] | [Hn ->]]];
      rewrite <- ?E in *; try lia; try (exfalso; lra);
      destruct (Z.even (Qfloor m)); try lia; exfalso; lra.
  - assert (Qfloor m + 1 <= Qfloor n)%Z by lia.
    assert (rne m <= Qfloor m + 1)%Z.
    { destruct (rne_cases m) as [[_ ->] | [[_ ->] | [_ ->]]];
        [lia | lia | destruct (Z.even _); lia]. }
    assert (Qfloor n <= rne n)%Z.
    { destruct (rne_cases n) as [[_ ->] | [[_ ->] | [_ ->]]];
        [lia | lia | destruct (Z.even _); lia]. }
    lia.
Qed.

Lemma rne_opp m : rne (- m) = (- rne m)%Z.
Proof.
  destruct (Qfloor_bounds m) as [L U].
  destruct (Qeq_dec m (inject_Z (Qfloor m))) as [E | NE].
  - rewrite (rne_comp (m := m) (n := inject_Z (Qfloor m))) by exact E.
    rewrite (rne_comp (m := - m) (n := inject_Z (- Qfloor m))).
    + rewrite !rne_Z. reflexivity.
    + rewrite inject_Z_opp, <- E. reflexivity.
  - assert (Hf : Qfloor (- m) = (- Qfloor m - 1)%Z).
    { apply Qfloor_unique.
      - rewrite inj_sub1, inject_Z_opp. lra.
      - rewrite inj_sub1, inject_Z_opp.
        assert (inject_Z (Qfloor m) < m).
        { apply Qle_lteq in L. destruct L as [L|L]; [exact L|]. exfalso. apply NE. symmetry. exact L. }
        lra. }
    assert (Hi : inject_Z (Qfloor (- m)) == - inject_Z (Qfloor m) - 1).
    { rewrite Hf, inj_sub1, inject_Z_opp. reflexivity. }
    assert (Hev : Z.even (- Qfloor m - 1) = negb (Z.even (Qfloor m))).
    { rewrite Z.even_sub, Z.even_opp. simpl. destruct (Z.even (Qfloor m)); reflexivity. }
    destruct (rne_cases m) as [[Hm Em] | [[Hm Em] | [Hm Em]]];
      destruct (rne_cases (- m)) as [[Hn En] | [[Hn En] | [Hn En]]];
      cbv zeta in *; rewrite Em, En, ?Hf; rewrite ?Hi in *;
      try lia; try (exfalso; lra).
    rewrite Hev. destruct (Z.even (Qfloor m)); simpl; lia.
Qed.

Lemma Qabs_zero_iff q : Qabs q == 0 <-> q == 0.
Proof.
  split; intros H.
  - revert H. apply Qabs_case; intros; lra.
  - rewrite H. reflexivity.
Qed.

Lemma ilog2_comp p q : p == q -> ~ p == 0 -> ilog2 p = ilog2 q.
Proof.
  intros E Hp. symmetry.
  destruct (ilog2_spec Hp) as [L U].
  apply ilog2_unique; rewrite <- E; assumption.
Qed.

Lemma ilog2_opp q : ilog2 (- q) = ilog2 q.
Proof.
  unfold ilog2. destruct q as [n d]. simpl. rewrite Z.abs_opp.
  replace (Qabs (- n # d)) with (Qabs (n # d)); [reflexivity|].
  unfold Qabs. rewrite Z.abs_opp. reflexivity.
Qed.

Lemma cexp_comp p q : p == q -> ~ p == 0 -> cexp p = cexp q.
Proof. intros E Hp. unfold cexp. rewrite (ilog2_comp E Hp). reflexivity. Qed.

Lemma cexp_opp q : cexp (- q) = cexp q.
Proof. unfold cexp. rewrite ilog2_opp. reflexivity. Qed.

Lemma RN_zero q : q == 0 -> RN q = 0.
Proof. intros H. unfold RN. apply Qeq_bool_iff in H. rewrite H. reflexivity. Qed.

Lemma RN_nonzero q :
  ~ q == 0 -> RN q = inject_Z (rne (q / pow2 (cexp q))) * pow2 (cexp q).
Proof.
  intros H. unfold RN. destruct (Qeq_bool q 0) eqn:E; [|reflexivity].
  apply Qeq_bool_iff in E. contradiction.
Qed.

Lemma RN_comp p q : p == q -> RN p == RN q.
Proof.
  intros E. destruct (Qeq_dec p 0) as [Z | NZ].
  - rewrite (RN_zero Z). rewrite (RN_zero (q := q)); [reflexivity | rewrite <- E; exact Z].
  - assert (NZ' : ~ q == 0) by (rewrite <- E; exact NZ).
    rewrite (RN_nonzero NZ), (RN_nonzero NZ'), <- (cexp_comp E NZ).
    rewrite (rne_comp (m := p / pow2 (cexp p)) (n := q / pow2 (cexp p))); [reflexivity|].
    unfold Qdiv. apply Qmult_comp; [exact E | reflexivity].
Qed.

#[export] Instance RN_Proper : Proper (Qeq ==> Qeq) RN.
Proof. intros p q E. apply RN_comp. exact E. Qed.

Lemma RN_opp q : RN (- q) == - RN q.
Proof.
  destruct (Qeq_dec q 0) as [Z | NZ].
  - rewrite (RN_zero Z). rewrite (RN_zero (q := - q)); [reflexivity | rewrite Z; reflexivity].
  - assert (NZ' : ~ - q == 0) by (intros C; apply NZ; lra).
    rewrite (RN_nonzero NZ), (RN_nonzero NZ'), cexp_opp.
    rewrite (rne_comp (m := - q / pow2 (cexp q)) (n := - (q / pow2 (cexp q)))).
    + rewrite rne_opp, inject_Z_opp. ring.
    + unfold Qdiv. ring.
Qed.

(** Rounding never crosses a point of the grid of the rounded number. *)
Lemma RN_le_grid q n :
  ~ q == 0 -> q <= inject_Z n * pow2 (cexp q) -> RN q <= inject_Z n * pow2 (cexp q).
Proof.
  intros NZ H. rewrite (RN_nonzero NZ).
  pose proof (pow2_pos (cexp q)) as Hp.
  apply Qmult_le_compat_r; [|lra].
  rewrite <- Zle_Qle.
  apply Z.le_trans with (rne (inject_Z n)); [apply rne_mono | rewrite rne_Z; lia].
  apply Qle_shift_div_r; assumption.
Qed.

Lemma RN_ge_grid q n :
  ~ q == 0 -> inject_Z n * pow2 (cexp q) <= q -> inject_Z n * pow2 (cexp q) <= RN q.
Proof.
  intros NZ H. rewrite (RN_nonzero NZ).
  pose proof (pow2_pos (cexp q)) as Hp.
  apply Qmult_le_compat_r; [|lra].
  rewrite <- Zle_Qle.
  apply Z.le_trans with (rne (inject_Z n)); [rewrite rne_Z; lia | apply rne_mono].
  apply Qle_shift_div_l; assumption.
Qed.

Lemma RN_grid_id q n : q == inject_Z n * pow2 (cexp q) -> RN q == q.
Proof.
  intros H. destruct (Qeq_dec q 0) as [Z | NZ].
  - rewrite (RN_zero Z), Z. reflexivity.
  - apply Qle_antisym.
    + rewrite H at 2. apply RN_le_grid; [exact NZ | rewrite <- H; apply Qle_refl].
    + rewrite H at 1. apply RN_ge_grid; [exact NZ | rewrite <- H; apply Qle_refl].
Qed.

Lemma RN_nonneg q : 0 <= q -> 0 <= RN q.
Proof.
  intros H. destruct (Qeq_dec q 0) as [Z | NZ].
  - rewrite (RN_zero Z). apply Qle_refl.
  - apply Qle_trans with (inject_Z 0 * pow2 (cexp q)).
    + change (inject_Z 0) with 0. lra.
    + apply RN_ge_grid; [exact NZ|]. change (inject_Z 0) with 0. lra.
Qed.

Lemma RN_nonpos q : q <= 0 -> RN q <= 0.
Proof.
  intros H. destruct (Qeq_dec q 0) as [Z | NZ].
  - rewrite (RN_zero Z). apply Qle_refl.
  - apply Qle_trans with (inject_Z 0 * pow2 (cexp q)).
    + apply RN_le_grid; [exact NZ|]. change (inject_Z 0) with 0. lra.
    + change (inject_Z 0) with 0. lra.
Qed.

Lemma ilog2_pos_spec q : 0 < q -> pow2 (ilog2 q) <= q /\ q < pow2 (ilog2 q + 1).
Proof.
  intros H. assert (NZ : ~ q == 0) by lra.
  destruct (ilog2_spec NZ) as [L U].
  rewrite Qabs_pos in L, U by lra. split; assumption.
Qed.

Lemma RN_mono_pos p q : 0 < p -> p <= q -> RN p <= RN q.
Proof.
  intros Hp Hpq.
  assert (Hq : 0 < q) by lra.
  assert (NZp : ~ p == 0) by lra. assert (NZq : ~ q == 0) by lra.
  destruct (ilog2_pos_spec Hp) as [Lp Up]. destruct (ilog2_pos_spec Hq) as [Lq Uq].
  assert (He : (ilog2 p <= ilog2 q)%Z).
  { assert (ilog2 p < ilog2 q + 1)%Z by (apply pow2_lt_inv; lra). lia. }
  destruct (Z.eq_dec (cexp p) (cexp q)) as [Ec | Nc].
  - rewrite (RN_nonzero NZp), (RN_nonzero NZq), Ec.
    pose proof (pow2_pos (cexp q)) as Hc.
    apply Qmult_le_compat_r; [|lra].
    rewrite <- Zle_Qle. apply rne_mono.
    apply Qmult_le_compat_r; [exact Hpq|].
    apply Qlt_le_weak, Qinv_lt_0_compat, Hc.
  - assert (Hc : (cexp p < cexp q)%Z) by (unfold cexp in *; lia).
    assert (Hcq : cexp q = (ilog2 q - 52)%Z) by (unfold cexp, prec, emin in *; lia).
    assert (Hep : (ilog2 p + 1 <= ilog2 q)%Z) by (unfold cexp, prec, emin in *; lia).
    apply Qle_trans with (pow2 (ilog2 q)).
    + assert (Hk : (0 <= ilog2 q - cexp p)%Z) by lia.
      assert (G : pow2 (ilog2 q) == inject_Z (2 ^ (ilog2 q - cexp p)) * pow2 (cexp p)).
      { rewrite <- pow2_Z by exact Hk. rewrite <- pow2_add. f_equiv. lia. }
      rewrite G. apply RN_le_grid; [exact NZp|]. rewrite <- G.
      pose proof (pow2_le Hep). lra.
    + assert (G : pow2 (ilog2 q) == inject_Z (2 ^ 52) * pow2 (cexp q)).
      { rewrite <- pow2_Z by lia. rewrite <- pow2_add. f_equiv. lia. }
      rewrite G. apply RN_ge_grid; [exact NZq|]. rewrite <- G. exact Lq.
Qed.

Theorem RN_mono p q : p <= q -> RN p <= RN q.
Proof.
  intros H.
  destruct (Qlt_le_dec 0 p) as [Hp | Hp].
  - apply RN_mono_pos; assumption.
  - destruct (Qlt_le_dec q 0) as [Hq | Hq].
    + assert (Hm : RN (- q) <= RN (- p)) by (apply RN_mono_pos; lra).
      rewrite !RN_opp in Hm. lra.
    + pose proof (RN_nonpos Hp). pose proof (RN_nonneg Hq). lra.
Qed.

Lemma RN_error_cexp q : ~ q == 0 -> Qabs (RN q - q) <= pow2 (cexp q - 1).
Proof.
  intros NZ. rewrite (RN_nonzero NZ).
  set (c := cexp q). pose proof (pow2_pos c) as Hc.
  set (m := q / pow2 c).
  assert (Hq : q == m * pow2 c) by (unfold m; field; lra).
  assert (E : inject_Z (rne m) * pow2 c - q == (inject_Z (rne m) - m) * pow2 c).
  { rewrite Hq at 1. ring. }
  rewrite E, Qabs_Qmult, (Qabs_pos (pow2 c)) by lra.
  rewrite pow2_sub. change (pow2 1) with (2 # 1).
  pose proof (rne_error m) as Hr.
  apply Qle_trans with ((1 # 2) * pow2 c).
  - apply Qmult_le_compat_r; lra.
  - apply Qle_lteq. right. field.
Qed.

Lemma RN_error q k : (emin + prec <= k)%Z -> Qabs q < pow2 k -> Qabs (RN q - q) <= pow2 (k - prec - 1).
Proof.
  intros Hk H. destruct (Qeq_dec q 0) as [Z | NZ].
  - rewrite (RN_zero Z), Z. simpl. apply Qlt_le_weak, pow2_pos.
  - apply Qle_trans with (pow2 (cexp q - 1)); [apply RN_error_cexp; exact NZ|].
    apply pow2_le. destruct (ilog2_spec NZ) as [L U].
    assert (ilog2 q < k)%Z by (apply pow2_lt_inv; lra).
    unfold cexp, prec, emin in *. lia.
Qed.

Lemma RN_int z : (Z.abs z <= 2 ^ 53)%Z -> RN (inject_Z z) == inject_Z z.
Proof.
  intros Hz. destruct (Z.eq_dec z 0) as [-> | NZ]; [reflexivity|].
  assert (NQ : ~ inject_Z z == 0).
  { intros C. apply NZ. unfold Qeq in C. simpl in C. lia. }
  destruct (ilog2_spec NQ) as [L U].
  assert (Habs : Qabs (inject_Z z) == inject_Z (Z.abs z)) by reflexivity.
  rewrite Habs in L, U.
  assert (H0 : (0 <= ilog2 (inject_Z z))%Z).
  { assert (0 < ilog2 (inject_Z z) + 1)%Z; [|lia].
    apply pow2_lt_inv. apply Qle_lt_trans with (inject_Z (Z.abs z)); [|exact U].
    rewrite pow2_0. change 1 with (inject_Z 1). rewrite <- Zle_Qle. lia. }
  assert (H1 : (ilog2 (inject_Z z) <= 53)%Z).
  { assert (ilog2 (inject_Z z) < 54)%Z; [|lia].
    apply pow2_lt_inv. apply Qle_lt_trans with (inject_Z (Z.abs z)); [exact L|].
    rewrite (pow2_Z (e := 54)) by lia. rewrite <- Zlt_Qlt. lia. }
  set (e := ilog2 (inject_Z z)) in *.
  assert (Hc : cexp (inject_Z z) = (e - 52)%Z) by (unfold cexp, prec, emin; fold e; lia).
  destruct (Z.eq_dec e 53) as [E53 | N53].
  - rewrite E53 in *. rewrite (pow2_Z (e := 53)) in L by lia. rewrite <- Zle_Qle in L.
    assert (Hz2 : z = (2 * (z / 2))%Z).
    { assert (Z.abs z = 2 ^ 53)%Z by lia.
      destruct (Z.abs_eq_or_opp z) as [A | A]; rewrite A in H; [subst z; reflexivity|].
      assert (z = - 2 ^ 53)%Z by lia. subst z. reflexivity. }
    apply (RN_grid_id (n := (z / 2)%Z)). rewrite Hc.
    change (pow2 (53 - 52)) with (2 # 1). rewrite Hz2 at 1.
    rewrite inject_Z_mult. change (inject_Z 2) with (2 # 1). ring.
  - apply (RN_grid_id (n := (z * 2 ^ (52 - e))%Z)). rewrite Hc.
    rewrite inject_Z_mult, <- pow2_Z by lia.
    rewrite <- Qmult_assoc, <- pow2_add.
    replace (52 - e + (e - 52))%Z with 0%Z by lia. rewrite pow2_0. ring.
Qed.

Lemma to_int_Z z : to_int (inject_Z z) = z.
Proof. unfold to_int. destruct (Qle_bool 0 (inject_Z z)); [apply Qfloor_Z | apply Qceiling_Z]. Qed.

Lemma to_int_comp p q : p == q -> to_int p = to_int q.
Proof.
  intros E. unfold to_int.
  replace (Qle_bool 0 q) with (Qle_bool 0 p).
  - rewrite (Qfloor_comp _ _ E), (Qceiling_comp _ _ E). reflexivity.
  - destruct (Qle_bool 0 p) eqn:A; destruct (Qle_bool 0 q) eqn:B; try reflexivity.
    + apply Qle_bool_iff in A. rewrite E in A. apply Qle_bool_iff in A. congruence.
    + apply Qle_bool_iff in B. rewrite <- E in B. apply Qle_bool_iff in B. congruence.
Qed.

Lemma to_int_mono p q : p <= q -> (to_int p <= to_int q)%Z.
Proof.
  intros H. unfold to_int.
  destruct (Qle_bool 0 p) eqn:A; destruct (Qle_bool 0 q) eqn:B.
  - apply Qfloor_resp_le. exact H.
  - apply Qle_bool_iff in A. exfalso.
    assert (C : 0 <= q) by lra. apply Qle_bool_iff in C. congruence.
  - assert (Hp : p < 0).
    { apply Qnot_le_lt. intros C. apply Qle_bool_iff in C. congruence. }
    apply Qle_bool_iff in B.
    apply Z.le_trans with 0%Z.
    + rewrite <- (Qceiling_Z 0). apply Qceiling_resp_le. change (inject_Z 0) with 0. lra.
    + rewrite <- (Qfloor_Z 0). apply Qfloor_resp_le. exact B.
  - apply Qceiling_resp_le. exact H.
Qed.

Lemma of_int_exact z : (Z.abs z <= 2 ^ 53)%Z -> of_int z == inject_Z z.
Proof. apply RN_int. Qed.

Lemma of_int_nonneg z : (0 <= z)%Z -> 0 <= of_int z.
Proof. intros H. apply RN_nonneg. change 0 with (inject_Z 0). rewrite <- Zle_Qle. exact H. Qed.

Lemma of_int_nonpos z : (z <= 0)%Z -> of_int z <= 0.
Proof. intros H. apply RN_nonpos. change 0 with (inject_Z 0). rewrite <- Zle_Qle. exact H. Qed.

Lemma lerp_mono_up c1 c2 r r' : (c1 <= c2)%Z -> r <= r' -> (lerp c1 c2 r <= lerp c1 c2 r')%Z.
Proof.
  intros Hc Hr. unfold lerp, add, mul. apply to_int_mono, RN_mono.
  apply Qplus_le_r, RN_mono.
  assert (0 <= of_int (c2 - c1)) by (apply of_int_nonneg; lia).
  rewrite !(Qmult_comm (of_int _)). apply Qmult_le_compat_r; assumption.
Qed.

Lemma lerp_mono_down c1 c2 r r' : (c2 <= c1)%Z -> r <= r' -> (lerp c1 c2 r' <= lerp c1 c2 r)%Z.
Proof.
  intros Hc Hr. unfold lerp, add, mul. apply to_int_mono, RN_mono.
  apply Qplus_le_r, RN_mono.
  assert (Hd : of_int (c2 - c1) <= 0) by (apply of_int_nonpos; lia).
  nra.
Qed.

Lemma int_div_mono x x' w : (0 < w)%Z -> (x <= x')%Z -> int_div x w <= int_div x' w.
Proof.
  intros Hw Hx. unfold int_div. apply RN_mono.
  assert (0 < inject_Z w) by (change 0 with (inject_Z 0); rewrite <- Zlt_Qlt; exact Hw).
  apply Qmult_le_compat_r.
  - rewrite <- Zle_Qle. exact Hx.
  - apply Qlt_le_weak, Qinv_lt_0_compat. assumption.
Qed.

Lemma inj_sub a b : inject_Z (a - b) == inject_Z a - inject_Z b.
Proof. unfold Z.sub. rewrite inject_Z_plus, inject_Z_opp. reflexivity. Qed.

Lemma RN_le_int q z : (Z.abs z <= 2 ^ 53)%Z -> q <= inject_Z z -> RN q <= inject_Z z.
Proof.
  intros Hz H. apply Qle_trans with (RN (inject_Z z)).
  - apply RN_mono. exact H.
  - rewrite RN_int by exact Hz. apply Qle_refl.
Qed.

Lemma RN_ge_int q z : (Z.abs z <= 2 ^ 53)%Z -> inject_Z z <= q -> inject_Z z <= RN q.
Proof.
  intros Hz H. apply Qle_trans with (RN (inject_Z z)).
  - rewrite RN_int by exact Hz. apply Qle_refl.
  - apply RN_mono. exact H.
Qed.

Lemma int_div_0 w : int_div 0 w = 0.
Proof. unfold int_div. apply RN_zero. unfold Qdiv. ring. Qed.

Lemma inject_Z_pos w : (0 < w)%Z -> 0 < inject_Z w.
Proof. intros H. change 0 with (inject_Z 0). rewrite <- Zlt_Qlt. exact H. Qed.

Lemma Qdiv_Z_bounds x w :
  (0 <= x < w)%Z -> 0 <= inject_Z x / inject_Z w /\ inject_Z x / inject_Z w < 1.
Proof.
  intros [H0 H1]. assert (Hw : 0 < inject_Z w) by (apply inject_Z_pos; lia).
  split.
  - apply Qle_shift_div_l; [exact Hw|]. rewrite Qmult_0_l.
    change 0 with (inject_Z 0). rewrite <- Zle_Qle. exact H0.
  - apply Qlt_shift_div_r; [exact Hw|]. rewrite Qmult_1_l. rewrite <- Zlt_Qlt. exact H1.
Qed.

Lemma int_div_unit x w : (0 <= x < w)%Z -> 0 <= int_div x w <= 1.
Proof.
  intros H. destruct (Qdiv_Z_bounds H) as [L U]. unfold int_div. split.
  - apply RN_nonneg. exact L.
  - change 1 with (inject_Z 1). apply RN_le_int; [simpl; lia|].
    change (inject_Z 1) with 1. lra.
Qed.

Lemma lerp_fsum c1 c2 r : lerp c1 c2 r = to_int (fsum c1 c2 r).
Proof. reflexivity. Qed.

Lemma fsum_at_0 c1 c2 r : small c1 -> r == 0 -> fsum c1 c2 r == inject_Z c1.
Proof.
  unfold small. intros Hc Hr. unfold fsum, add, mul.
  assert (E : of_int (c2 - c1) * r == 0) by (rewrite Hr; ring).
  rewrite (RN_zero E). rewrite Qplus_0_r. unfold of_int.
  rewrite (RN_int c1) by lia. apply RN_int. lia.
Qed.

Lemma lerp_at_0 c1 c2 r : small c1 -> r == 0 -> lerp c1 c2 r = c1.
Proof.
  intros Hc Hr. rewrite lerp_fsum, (to_int_comp (fsum_at_0 c2 Hc Hr)). apply to_int_Z.
Qed.

Lemma fsum_between_up c1 c2 r :
  small c1 -> small c2 -> (c1 <= c2)%Z -> 0 <= r <= 1 ->
  inject_Z c1 <= fsum c1 c2 r <= inject_Z c2.
Proof.
  unfold small. intros H1 H2 Hc [R0 R1]. unfold fsum, add, mul.
  assert (Hd : (Z.abs (c2 - c1) <= 2 ^ 53)%Z) by lia.
  assert (D := of_int_exact _ Hd).
  assert (C := of_int_exact c1 ltac:(lia)).
  assert (Dn : 0 <= inject_Z (c2 - c1)) by (change 0 with (inject_Z 0); rewrite <- Zle_Qle; lia).
  assert (P0 : 0 <= RN (of_int (c2 - c1) * r)).
  { apply RN_nonneg. rewrite D. apply Qmult_le_0_compat; assumption. }
  assert (P1 : RN (of_int (c2 - c1) * r) <= inject_Z (c2 - c1)).
  { apply RN_le_int; [exact Hd|]. rewrite D. nra. }
  split.
  - apply RN_ge_int; [lia|]. rewrite C. lra.
  - apply RN_le_int; [lia|]. rewrite C.
    pose proof (inj_sub c2 c1). lra.
Qed.

Lemma fsum_between_down c1 c2 r :
  small c1 -> small c2 -> (c2 <= c1)%Z -> 0 <= r <= 1 ->
  inject_Z c2 <= fsum c1 c2 r <= inject_Z c1.
Proof.
  unfold small. intros H1 H2 Hc [R0 R1]. unfold fsum, add, mul.
  assert (Hd : (Z.abs (c2 - c1) <= 2 ^ 53)%Z) by lia.
  assert (D := of_int_exact _ Hd).
  assert (C := of_int_exact c1 ltac:(lia)).
  assert (Dn : inject_Z (c2 - c1) <= 0) by (change 0 with (inject_Z 0); rewrite <- Zle_Qle; lia).
  assert (P0 : RN (of_int (c2 - c1) * r) <= 0).
  { apply RN_nonpos. rewrite D. nra. }
  assert (P1 : inject_Z (c2 - c1) <= RN (of_int (c2 - c1) * r)).
  { apply RN_ge_int; [exact Hd|]. rewrite D. nra. }
  split.
  - apply RN_ge_int; [lia|]. rewrite C.
    pose proof (inj_sub c2 c1). lra.
  - apply RN_le_int; [lia|]. rewrite C. lra.
Qed.

Lemma to_int_between a b q : inject_Z a <= q <= inject_Z b -> (a <= to_int q <= b)%Z.
Proof.
  intros [L U]. split.
  - rewrite <- (to_int_Z a). apply to_int_mono. exact L.
  - rewrite <- (to_int_Z b). apply to_int_mono. exact U.
Qed.

Lemma lerp_between c1 c2 r :
  small c1 -> small c2 -> 0 <= r <= 1 ->
  (Z.min c1 c2 <= lerp c1 c2 r <= Z.max c1 c2)%Z.
Proof.
  intros H1 H2 Hr. rewrite lerp_fsum.
  destruct (Z.le_ge_cases c1 c2) as [Hc | Hc].
  - rewrite Z.min_l, Z.max_r by lia. apply to_int_between, fsum_between_up; assumption.
  - rewrite Z.min_r, Z.max_l by lia. apply to_int_between, fsum_between_down; assumption.
Qed.

Lemma channel_small v : channel_ok v -> small v.
Proof. unfold channel_ok, small. intros H. change (2 ^ 52)%Z with 4503599627370496%Z. lia. Qed.

Lemma Qabs_le_iff x y : Qabs x <= y <-> - y <= x <= y.
Proof. apply Qabs_Qle_condition. Qed.

Lemma Qabs_lt_of x y : - y < x -> x < y -> Qabs x < y.
Proof. intros L U. apply Qabs_case; intros; lra. Qed.

Lemma fsum_error c1 c2 x w :
  channel_ok c1 -> channel_ok c2 -> (0 <= x < w)%Z ->
  Qabs (fsum c1 c2 (int_div x w) - exact_lerp c1 c2 x w) <= pow2 (-44).
Proof.
  unfold channel_ok. intros H1 H2 Hx.
  destruct (Qdiv_Z_bounds Hx) as [Q0 Q1].
  unfold fsum, exact_lerp, add, mul, int_div.
  set (q0 := inject_Z x / inject_Z w) in *.
  assert (D : of_int (c2 - c1) == inject_Z (c2 - c1)) by (apply of_int_exact; lia).
  assert (C : of_int c1 == inject_Z c1) by (apply of_int_exact; lia).
  assert (Dl : -255 <= inject_Z (c2 - c1)).
  { change (-255) with (inject_Z (-255)). rewrite <- Zle_Qle. lia. }
  assert (Du : inject_Z (c2 - c1) <= 255).
  { change 255 with (inject_Z 255). rewrite <- Zle_Qle. lia. }
  assert (Cl : 0 <= inject_Z c1).
  { change 0 with (inject_Z 0). rewrite <- Zle_Qle. lia. }
  assert (Cu : inject_Z c1 <= 255).
  { change 255 with (inject_Z 255). rewrite <- Zle_Qle. lia. }
  set (d := inject_Z (c2 - c1)) in *. set (a := inject_Z c1) in *.
  set (r := RN q0).
  assert (R0 : 0 <= r) by (apply RN_nonneg; exact Q0).
  assert (R1 : r <= 1).
  { change 1 with (inject_Z 1). apply RN_le_int; [simpl; lia|]. change (inject_Z 1) with 1. lra. }
  assert (E1 : Qabs (r - q0) <= pow2 (0 - prec - 1)).
  { apply RN_error; [unfold emin, prec; lia|]. rewrite pow2_0. apply Qabs_lt_of; lra. }
  set (t := of_int (c2 - c1) * r).
  assert (T : t == d * r) by (unfold t; rewrite D; reflexivity).
  assert (Tb : -255 <= t <= 255) by (rewrite T; split; nra).
  assert (E2 : Qabs (RN t - t) <= pow2 (8 - prec - 1)).
  { apply RN_error; [unfold emin, prec; lia|].
    change (pow2 8) with 256. apply Qabs_lt_of; lra. }
  set (p := RN t) in *.
  change (pow2 (0 - prec - 1)) with (1 # 18014398509481984) in E1.
  change (pow2 (8 - prec - 1)) with (1 # 70368744177664) in E2.
  apply Qabs_le_iff in E1. apply Qabs_le_iff in E2.
  set (u := of_int c1 + p).
  assert (U : u == a + p) by (unfold u; rewrite C; reflexivity).
  assert (E3 : Qabs (RN u - u) <= pow2 (9 - prec - 1)).
  { apply RN_error; [unfold emin, prec; lia|].
    change (pow2 9) with 512. apply Qabs_lt_of; lra. }
  change (pow2 (9 - prec - 1)) with (1 # 35184372088832) in E3.
  apply Qabs_le_iff in E3.
  change (pow2 (-44)) with (1 # 17592186044416).
  apply Qabs_le_iff.
  assert (G : - (255 # 18014398509481984) <= d * (r - q0) <= 255 # 18014398509481984).
  { split; nra. }
  split; nra.
Qed.


Lemma to_int_nonneg q : 0 <= q -> to_int q = Qfloor q.
Proof. intros H. unfold to_int. apply Qle_bool_iff in H. rewrite H. reflexivity. Qed.


End FloatFacts.

(* ===================================================================== *)
(** * Colour parsing: facts                                               *)
(* ===================================================================== *)

Lemma all_ascii_complete c : In c all_ascii.
Proof.
  unfold all_ascii. rewrite <- (ascii_nat_embedding c).
  apply in_map, in_seq. pose proof (nat_ascii_bounded c). lia.
Qed.

Lemma pair_check_all :
  forallb (fun a => forallb (pair_check a) all_ascii) all_ascii = true.
Proof. vm_compute. reflexivity. Qed.

Lemma int16_pair a b :
  PyStr.is_hex a = true -> PyStr.is_hex b = true ->
  PyStr.int16 (String a (String b "")) = Ok (hex_pair a b) /\ channel_ok (hex_pair a b).
Proof.
  intros Ha Hb.
  pose proof pair_check_all as H.
  rewrite forallb_forall in H. specialize (H a (all_ascii_complete a)).
  rewrite forallb_forall in H. specialize (H b (all_ascii_complete b)).
  unfold pair_check in H. rewrite Ha, Hb in H. simpl in H.
  destruct (PyStr.int16 (String a (String b ""))) as [v | e]; [|discriminate].
  apply andb_prop in H. destruct H as [H H2]. apply andb_prop in H. destruct H as [H0 H1].
  apply Z.eqb_eq in H0. apply Z.leb_le in H1, H2. subst v.
  split; [reflexivity | split; assumption].
Qed.

Lemma is_hex_not_hash a : PyStr.is_hex a = true -> Ascii.eqb a "#" = false.
Proof.
  intros H. destruct (Ascii.eqb_spec a "#"%char) as [-> | N]; [|reflexivity].
  discriminate H.
Qed.

Lemma lstrip_hashes n s : PyStr.lstrip "#" (hashes n ++ s) = PyStr.lstrip "#" s.
Proof. induction n as [|n IH]; [reflexivity | simpl; exact IH]. Qed.

Lemma hex_to_rgb_six n a b c d e f :
  forallb PyStr.is_hex [a; b; c; d; e; f] = true ->
  hex_to_rgb (hashes n ++ six a b c d e f)
  = Ok (hex_pair a b, hex_pair c d, hex_pair e f)
  /\ rgb_ok (hex_pair a b, hex_pair c d, hex_pair e f).
Proof.
  intros H. simpl in H.
  repeat (apply andb_prop in H; destruct H as [? H]).
  destruct (int16_pair a b) as [E1 R1]; try assumption.
  destruct (int16_pair c d) as [E2 R2]; try assumption.
  destruct (int16_pair e f) as [E3 R3]; try assumption.
  split; [|repeat split; first [apply R1 | apply R2 | apply R3]].
  unfold hex_to_rgb. rewrite lstrip_hashes.
  unfold six. cbn [PyStr.lstrip]. rewrite (is_hex_not_hash a) by assumption.
  unfold PyStr.slice. cbn [substring]. rewrite E1, E2, E3. reflexivity.
Qed.

Lemma byte_check_all upper : forallb (byte_check upper) (range 256) = true.
Proof. destruct upper; vm_compute; reflexivity. Qed.

Lemma in_range n v : 0 <= v < n -> In v (range n).
Proof.
  intros H. unfold range. rewrite <- (Z2Nat.id v) by lia.
  apply in_map, in_seq. lia.
Qed.

Lemma int16_hex_byte upper v :
  channel_ok v ->
  PyStr.int16 (hex_byte upper v) = Ok v /\ Ascii.eqb (hex_char upper (v / 16)) "#" = false.
Proof.
  intros Hv. pose proof (byte_check_all upper) as H.
  assert (Hr : 0 <= v < 256) by (unfold channel_ok in Hv; lia).
  rewrite forallb_forall in H. specialize (H v (in_range Hr)).
  unfold byte_check in H.
  destruct (PyStr.int16 (hex_byte upper v)) as [w | e]; [|discriminate].
  apply andb_prop in H. destruct H as [H0 H1]. apply Z.eqb_eq in H0. subst w.
  split; [reflexivity|]. destruct (Ascii.eqb _ _); [discriminate | reflexivity].
Qed.

Lemma hex_to_rgb_toHex upper c : rgb_ok c -> hex_to_rgb (toHex upper c) = Ok c.
Proof.
  destruct c as [[r g] b]. intros (Hr & Hg & Hb).
  destruct (int16_hex_byte upper Hr) as [Er Nr].
  destruct (int16_hex_byte upper Hg) as [Eg _].
  destruct (int16_hex_byte upper Hb) as [Eb _].
  unfold hex_to_rgb, toHex. unfold hex_byte in *.
  cbn [append PyStr.lstrip Ascii.eqb Bool.eqb]. 
  change (Ascii.eqb "#" "#") with true. cbn iota.
  cbn [PyStr.lstrip]. rewrite Nr.
  unfold PyStr.slice. cbn [substring]. rewrite Er, Eg, Eb. reflexivity.
Qed.

Lemma valid_hex7_six s :
  valid_hex7 s = true ->
  exists a b c d e f, s = hashes 1 ++ six a b c d e f
                      /\ forallb PyStr.is_hex [a; b; c; d; e; f] = true.
Proof.
  intros H. unfold valid_hex7 in H.
  destruct s as [|h s]; [discriminate|].
  destruct (Ascii.eqb_spec h "#"%char) as [-> | N].
  - destruct s as [|a [|b [|c [|d [|e [|f [|g s]]]]]]]; try discriminate.
    exists a, b, c, d, e, f. split; [reflexivity | exact H].
  - exfalso. destruct h as [[] [] [] [] [] [] [] []]; try discriminate; apply N; reflexivity.
Qed.

(** C4: a valid seven-character ["#RRGGBB"] string parses to a triple
    whose channels all lie in 0..255, and parsing the hex form of a
    triple of such channels, upper or lower case, gives the triple back. *)
Theorem hex_to_rgb_valid_roundtrip s upper c :
  valid_hex7 s = true -> rgb_ok c ->
  (exists p, hex_to_rgb s = Ok p /\ rgb_ok p) /\
  hex_to_rgb (toHex upper c) = Ok c.
Proof.
  intros Hs Hc. split.
  - destruct (valid_hex7_six s Hs) as (a & b & c' & d & e & f & -> & H).
    destruct (hex_to_rgb_six 1 a b c' d e f H) as [E R].
    eexists. split; [exact E | exact R].
  - apply hex_to_rgb_toHex. exact Hc.
Qed.

Lemma hex_to_rgb_valid_roundtrip_witness :
  (exists p, hex_to_rgb "#2563EB" = Ok p /\ rgb_ok p) /\
  hex_to_rgb (toHex true (124, 58, 237)) = Ok (124, 58, 237).
Proof.
  apply (@hex_to_rgb_valid_roundtrip "#2563EB" true (124, 58, 237)).
  - reflexivity.
  - unfold rgb_ok, channel_ok. lia.
Defined.

Lemma valid_hex7_hashes n a b c d e f :
  forallb PyStr.is_hex [a; b; c; d; e; f] = true ->
  n <> 1%nat -> valid_hex7 (hashes n ++ six a b c d e f) = false.
Proof.
  intros H Hn. simpl in H. apply andb_prop in H. destruct H as [Ha H].
  pose proof (is_hex_not_hash a Ha) as Na.
  destruct n as [|[|n]].
  - simpl. destruct a as [[] [] [] [] [] [] [] []]; reflexivity.
  - congruence.
  - cbn [hashes append]. unfold valid_hex7.
    change (Ascii.eqb "#" "#") with true.
    destruct (hashes n ++ six a b c d e f) as [|c1 [|c2 [|c3 [|c4 [|c5 [|c6 s']]]]]];
      reflexivity.
Qed.

(** C10: the parser takes more than the seven-character form: after any
    number of leading ['#'], none included, six hexadecimal digits of
    either case give their triple; and every such string with a number of
    ['#'] other than one is outside the contract of the spec. *)
Theorem hex_to_rgb_lenient n a b c d e f :
  forallb PyStr.is_hex [a; b; c; d; e; f] = true ->
  hex_to_rgb (hashes n ++ six a b c d e f)
  = Ok (hex_pair a b, hex_pair c d, hex_pair e f)
  /\ (n <> 1%nat -> valid_hex7 (hashes n ++ six a b c d e f) = false).
Proof.
  intros H. split.
  - apply hex_to_rgb_six. exact H.
  - apply valid_hex7_hashes. exact H.
Qed.

Lemma hex_to_rgb_lenient_witness :
  hex_to_rgb "##2563eb" = Ok (37, 99, 235) /\
  (2%nat <> 1%nat -> valid_hex7 "##2563eb" = false).
Proof.
  apply (@hex_to_rgb_lenient 2 "2" "5" "6" "3" "e" "b"). reflexivity.
Defined.

(* ===================================================================== *)
(** * The gradient: facts                                                 *)
(* ===================================================================== *)

(** ** The monad *)

Lemma bind_ok {A B : Type} (m : M A) (k : A -> M B) l a :
  m = (l, Ok a) -> bind m k = ((l ++ fst (k a))%list, snd (k a)).
Proof. intros ->. unfold bind. destruct (k a). reflexivity. Qed.

Lemma bind_raise {A B : Type} (m : M A) (k : A -> M B) l e :
  m = (l, Raise e) -> bind m k = (l, Raise e).
Proof. intros ->. reflexivity. Qed.

Lemma for_each_emit {A S : Type} (ev : A -> event) (step : S -> A -> S)
      (body : A -> S -> M S) :
  (forall x s, body x s = ([ev x], Ok (step s x))) ->
  forall xs s, for_each xs body s = (map ev xs, Ok (fold_left step xs s)).
Proof.
  intros Hb. induction xs as [|x xs IH]; intros s.
  - reflexivity.
  - cbn [for_each]. rewrite (bind_ok _ (Hb x s)). rewrite IH. reflexivity.
Qed.

(** ** Painting columns *)

Lemma paint_columns_shape E height f xs im :
  let r := fold_left (paint_column E height f) xs im in
  im_mode r = im_mode im /\ im_width r = im_width im /\ im_height r = im_height im.
Proof.
  revert im. induction xs as [|x xs IH]; intros im; cbn [fold_left].
  - auto.
  - destruct (IH (paint_column E height f im x)) as (Hm & Hw & Hh).
    cbv zeta. rewrite Hm, Hw, Hh. auto.
Qed.

Lemma line_cover_column E x height a b :
  line_cover E (x, 0) (x, height) 0 a b = (a =? x) && between 0 height b.
Proof. unfold line_cover. cbn. rewrite Z.eqb_refl. reflexivity. Qed.

Lemma paint_columns_px E f xs : forall im a b,
  in_image im a b = true ->
  im_px (fold_left (paint_column E (im_height im) f) xs im) a b
  = if existsb (Z.eqb a) xs then ink (im_mode im) (f a) else im_px im a b.
Proof.
  induction xs as [|x xs IH] using rev_ind; intros im a b Hin.
  - reflexivity.
  - rewrite fold_left_app. cbn [fold_left].
    destruct (paint_columns_shape E (im_height im) f xs im) as (Hm & Hw & Hh).
    cbv zeta in Hm, Hw, Hh.
    set (r := fold_left (paint_column E (im_height im) f) xs im) in *.
    unfold paint_column at 1. unfold paint. cbn [im_px].
    assert (Hin' : in_image r a b = true).
    { unfold in_image in *. rewrite Hw, Hh. exact Hin. }
    rewrite Hin', line_cover_column, Hm. cbn [andb].
    rewrite existsb_app. cbn [existsb]. rewrite orb_false_r.
    assert (Hb : between 0 (im_height im) b = true).
    { unfold in_image in Hin. unfold between.
      apply andb_prop in Hin. destruct Hin as [Hin H4].
      apply andb_prop in Hin. destruct Hin as [Hin H3].
      apply Z.leb_le in H3. apply Z.ltb_lt in H4.
      apply andb_true_intro. split; apply Z.leb_le; lia. }
    rewrite Hb, andb_true_r.
    destruct (Z.eqb_spec a x) as [-> | N].
    + rewrite orb_true_r. reflexivity.
    + rewrite orb_false_r. unfold r. apply IH. exact Hin.
Qed.

Lemma existsb_range a n : 0 <= a < n -> existsb (Z.eqb a) (range n) = true.
Proof.
  intros H. apply existsb_exists. exists a. split; [|apply Z.eqb_refl].
  unfold range. rewrite <- (Z2Nat.id a) by lia. apply in_map, in_seq. lia.
Qed.

(** ** [create_gradient], horizontal *)

Lemma create_gradient_run E width height color1 color2 A B :
  0 <= width -> 0 <= height ->
  hex_to_rgb color1 = Ok A -> hex_to_rgb color2 = Ok B ->
  create_gradient E width height color1 color2 "horizontal"
  = (Call (CNew RGB width height) :: Call (CDraw RGB)
       :: map (fun x => Call (CLine (x, 0) (x, height) (column_fill A B x width) 0))
              (range width),
     Ok (fold_left (paint_column E height (fun x => column_fill A B x width))
           (range width) (mkImage RGB width height (fun _ _ => (0, 0, 0, 255))))).
Proof.
  intros Hw Hh HA HB. unfold create_gradient, Image_new, ImageDraw_Draw.
  destruct A as [[r1 g1] b1]. destruct B as [[r2 g2] b2].
  assert (Hneg : (width <? 0) || (height <? 0) = false).
  { apply orb_false_intro; apply Z.ltb_ge; assumption. }
  rewrite Hneg, HA, HB. cbn [emit bind ret lift app String.eqb Ascii.eqb Bool.eqb im_mode].
  change ("horizontal" =? "horizontal")%string with true. cbn iota.
  rewrite (for_each_emit
             (fun x => Call (CLine (x, 0) (x, height) (column_fill (r1, g1, b1) (r2, g2, b2) x width) 0))
             (paint_column E height (fun x => column_fill (r1, g1, b1) (r2, g2, b2) x width))).
  - reflexivity.
  - intros x s. reflexivity.
Qed.

Lemma clip8_id v : channel_ok v -> clip8 v = v.
Proof. unfold channel_ok, clip8. lia. Qed.

Lemma column_channel_between c1 c2 x width :
  channel_ok c1 -> channel_ok c2 -> 0 <= x < width ->
  Z.min c1 c2 <= column_channel c1 c2 x width <= Z.max c1 c2.
Proof.
  intros H1 H2 Hx. unfold column_channel.
  apply FloatFacts.lerp_between.
  - apply FloatFacts.channel_small. exact H1.
  - apply FloatFacts.channel_small. exact H2.
  - apply FloatFacts.int_div_unit. exact Hx.
Qed.

Lemma column_channel_ok c1 c2 x width :
  channel_ok c1 -> channel_ok c2 -> 0 <= x < width ->
  channel_ok (column_channel c1 c2 x width).
Proof.
  intros H1 H2 Hx. pose proof (column_channel_between H1 H2 Hx).
  unfold channel_ok in *. lia.
Qed.

Lemma ink_column_fill A B x width :
  rgb_ok A -> rgb_ok B -> 0 <= x < width ->
  ink RGB (column_fill A B x width) = gradient_pixel A B x width.
Proof.
  destruct A as [[r1 g1] b1]. destruct B as [[r2 g2] b2].
  intros (Hr1 & Hg1 & Hb1) (Hr2 & Hg2 & Hb2) Hx.
  unfold column_fill, gradient_pixel, ink.
  rewrite !clip8_id by (apply column_channel_ok; assumption). reflexivity.
Qed.

(** The image a horizontal gradient returns, pixel by pixel. *)
Lemma create_gradient_getpixel E width height color1 color2 A B :
  0 < width -> 0 < height ->
  hex_to_rgb color1 = Ok A -> hex_to_rgb color2 = Ok B ->
  rgb_ok A -> rgb_ok B ->
  exists img,
    snd (create_gradient E width height color1 color2 "horizontal") = Ok img
    /\ im_mode img = RGB /\ im_width img = width /\ im_height img = height
    /\ forall x y, 0 <= x < width -> 0 <= y < height ->
         getpixel img x y = Some (gradient_pixel A B x width).
Proof.
  intros Hw Hh HA HB OA OB.
  rewrite (@create_gradient_run E width height color1 color2 A B) by (assumption || lia).
  cbn [snd]. eexists. split; [reflexivity|].
  set (im0 := mkImage RGB width height (fun _ _ => (0, 0, 0, 255))).
  destruct (paint_columns_shape E height (fun x => column_fill A B x width) (range width) im0)
    as (Hm & Hwd & Hht).
  cbv zeta in Hm, Hwd, Hht.
  repeat split; try assumption.
  intros x y Hx Hy.
  assert (Hin : in_image im0 x y = true).
  { unfold in_image, im0. cbn.
    repeat (apply andb_true_intro; split); first [apply Z.leb_le | apply Z.ltb_lt]; lia. }
  unfold getpixel.
  replace (in_image (fold_left _ (range width) im0) x y) with true.
  - f_equal. change height with (im_height im0) at 1.
    rewrite paint_columns_px by exact Hin.
    rewrite existsb_range by exact Hx. cbn [im_mode im0].
    apply ink_column_fill; assumption.
  - symmetry. unfold in_image in *. rewrite Hwd, Hht. exact Hin.
Qed.

Lemma exact_lerp_last c1 c2 w :
  0 < w ->
  (exact_lerp c1 c2 (w - 1) w == inject_Z c2 - inject_Z (c2 - c1) / inject_Z w)%Q.
Proof.
  intros Hw. pose proof (FloatFacts.inject_Z_pos Hw) as Hq.
  unfold exact_lerp. rewrite FloatFacts.inj_sub1, (FloatFacts.inj_sub c2 c1). field. lra.
Qed.

Lemma step_bound d w :
  0 < w -> 0 <= d <= 255 ->
  (inject_Z d / inject_Z w + (1 # 17592186044416) <= inject_Z (d / w + 1))%Q.
Proof.
  intros Hw Hd. pose proof (FloatFacts.inject_Z_pos Hw) as Hq.
  pose proof (Z.div_mod d w ltac:(lia)) as Hdm.
  pose proof (Z.mod_pos_bound d w Hw) as Hm.
  assert (Hq0 : 0 <= d / w) by (apply Z.div_pos; lia).
  set (q := d / w) in *.
  assert (G : (inject_Z d / inject_Z w <= inject_Z (q + 1) - (1 # 17592186044416))%Q).
  { apply Qle_shift_div_r; [exact Hq|].
    destruct (Z.le_gt_cases w 17592186044416) as [Hs | Hb].
    - assert (B : (inject_Z d <= inject_Z ((q + 1) * w - 1))%Q) by (rewrite <- Zle_Qle; lia).
      assert (W : (inject_Z w <= inject_Z 17592186044416)%Q) by (rewrite <- Zle_Qle; exact Hs).
      rewrite FloatFacts.inj_sub1, inject_Z_mult in B.
      change (inject_Z 17592186044416) with (17592186044416 # 1)%Q in W.
      set (P := (inject_Z (q + 1) * inject_Z w)%Q) in *.
      setoid_replace ((inject_Z (q + 1) - (1 # 17592186044416)) * inject_Z w)%Q
        with (P - (1 # 17592186044416) * inject_Z w)%Q by (unfold P; ring).
      lra.
    - assert (B : (inject_Z d <= 255)%Q).
      { change 255%Q with (inject_Z 255). rewrite <- Zle_Qle. lia. }
      assert (W : (17592186044416 # 1 <= inject_Z w)%Q).
      { change (17592186044416 # 1)%Q with (inject_Z 17592186044416). rewrite <- Zle_Qle. lia. }
      assert (Q1 : (1 <= inject_Z (q + 1))%Q).
      { change 1%Q with (inject_Z 1). rewrite <- Zle_Qle. lia. }
      apply Qle_trans with ((1 - (1 # 17592186044416)) * inject_Z w)%Q; [lra|].
      apply Qmult_le_compat_r; lra. }
  lra.
Qed.

Lemma exact_lerp_last_neg c1 c2 w :
  0 < w ->
  (exact_lerp c1 c2 (w - 1) w == inject_Z c2 + inject_Z (c1 - c2) / inject_Z w)%Q.
Proof.
  intros Hw. pose proof (FloatFacts.inject_Z_pos Hw) as Hq.
  unfold exact_lerp. rewrite FloatFacts.inj_sub1, (FloatFacts.inj_sub c2 c1),
    (FloatFacts.inj_sub c1 c2). field. lra.
Qed.

Lemma column_channel_last c1 c2 w :
  channel_ok c1 -> channel_ok c2 -> 0 < w ->
  Z.abs (column_channel c1 c2 (w - 1) w - c2) <= last_gap c1 c2 w.
Proof.
  intros H1 H2 Hw. unfold column_channel, last_gap.
  assert (Hx : 0 <= w - 1 < w) by lia.
  pose proof (FloatFacts.fsum_error H1 H2 Hx) as E.
  change (PyFloat.pow2 (-44)) with (1 # 17592186044416)%Q in E.
  apply FloatFacts.Qabs_le_iff in E.
  pose proof (FloatFacts.int_div_unit Hx) as Hr.
  rewrite FloatFacts.lerp_fsum.
  set (s := fsum c1 c2 (PyFloat.int_div (w - 1) w)) in *.
  unfold channel_ok in H1, H2.
  destruct (Z.le_ge_cases c1 c2) as [Hc | Hc].
  - destruct (FloatFacts.fsum_between_up (FloatFacts.channel_small H1)
                (FloatFacts.channel_small H2) Hc Hr) as [L U].
    fold s in L, U.
    assert (S0 : (0 <= s)%Q).
    { apply Qle_trans with (inject_Z c1); [|exact L].
      change 0%Q with (inject_Z 0). rewrite <- Zle_Qle. lia. }
    rewrite (FloatFacts.to_int_nonneg S0).
    destruct (FloatFacts.Qfloor_bounds s) as [Fl Fu].
    rewrite (exact_lerp_last c1 c2 Hw) in E.
    pose proof (@step_bound (c2 - c1) w Hw ltac:(lia)) as G.
    rewrite (Z.abs_eq (c2 - c1)) by lia.
    set (g := (c2 - c1) / w + 1) in *.
    set (D := (inject_Z (c2 - c1) / inject_Z w)%Q) in *.
    set (k := Qfloor s) in *.
    assert (Up : k <= c2).
    { apply Z.lt_succ_r. rewrite Zlt_Qlt. unfold Z.succ. rewrite FloatFacts.inj_add1.
      apply Qle_lt_trans with s; [exact Fl|]. lra. }
    assert (Lo : c2 - g - 1 < k).
    { rewrite Zlt_Qlt. unfold Z.sub. rewrite !inject_Z_plus, !inject_Z_opp.
      change (inject_Z 1) with 1%Q. lra. }
    lia.
  - destruct (FloatFacts.fsum_between_down (FloatFacts.channel_small H1)
                (FloatFacts.channel_small H2) ltac:(lia) Hr) as [L U].
    fold s in L, U.
    assert (S0 : (0 <= s)%Q).
    { apply Qle_trans with (inject_Z c2); [|exact L].
      change 0%Q with (inject_Z 0). rewrite <- Zle_Qle. lia. }
    rewrite (FloatFacts.to_int_nonneg S0).
    destruct (FloatFacts.Qfloor_bounds s) as [Fl Fu].
    rewrite (exact_lerp_last_neg c1 c2 Hw) in E.
    pose proof (@step_bound (c1 - c2) w Hw ltac:(lia)) as G.
    replace (Z.abs (c2 - c1)) with (c1 - c2) by lia.
    set (g := (c1 - c2) / w + 1) in *.
    set (D := (inject_Z (c1 - c2) / inject_Z w)%Q) in *.
    set (k := Qfloor s) in *.
    assert (Lo : c2 <= k).
    { apply Z.lt_succ_r. rewrite Zlt_Qlt. unfold Z.succ. rewrite FloatFacts.inj_add1.
      apply Qle_lt_trans with s; [exact L | exact Fu]. }
    assert (Up : k < c2 + g + 1).
    { rewrite Zlt_Qlt, FloatFacts.inj_add1, inject_Z_plus.
      apply Qle_lt_trans with s; [exact Fl|]. lra. }
    lia.
Qed.

Lemma column_channel_last_gentle c1 c2 w :
  channel_ok c1 -> channel_ok c2 -> 0 < w -> gentle w (c1, c2) ->
  within_rounding (column_channel c1 c2 (w - 1) w) c2.
Proof.
  intros H1 H2 Hw Hg. pose proof (column_channel_last H1 H2 Hw) as H.
  unfold last_gap in H. unfold gentle in Hg. cbn [fst snd] in Hg.
  rewrite Z.div_small in H by lia. unfold within_rounding. lia.
Qed.

Lemma column_channel_first c1 c2 w : channel_ok c1 -> column_channel c1 c2 0 w = c1.
Proof.
  intros H. unfold column_channel. apply FloatFacts.lerp_at_0.
  - apply FloatFacts.channel_small. exact H.
  - rewrite FloatFacts.int_div_0. reflexivity.
Qed.

Lemma column_channel_mono c1 c2 x x' w :
  0 < w -> x <= x' ->
  (c1 <= c2 -> column_channel c1 c2 x w <= column_channel c1 c2 x' w) /\
  (c2 <= c1 -> column_channel c1 c2 x' w <= column_channel c1 c2 x w).
Proof.
  intros Hw Hx. pose proof (FloatFacts.int_div_mono Hw Hx) as Hr.
  unfold column_channel. split; intros Hc.
  - apply FloatFacts.lerp_mono_up; assumption.
  - apply FloatFacts.lerp_mono_down; assumption.
Qed.


Lemma Forall_channels (P : Z * Z -> Prop) A B :
  rgb_ok A -> rgb_ok B ->
  (forall c1 c2, channel_ok c1 -> channel_ok c2 -> P (c1, c2)) ->
  Forall P (channels A B).
Proof.
  destruct A as [[r1 g1] b1]. destruct B as [[r2 g2] b2].
  intros (Hr1 & Hg1 & Hb1) (Hr2 & Hg2 & Hb2) H.
  unfold channels. repeat constructor; apply H; assumption.
Qed.

Lemma gentle_wide c1 c2 w : channel_ok c1 -> channel_ok c2 -> 255 < w -> gentle w (c1, c2).
Proof. unfold channel_ok, gentle. cbn [fst snd]. lia. Qed.

Lemma gentle_channels A B w :
  rgb_ok A -> rgb_ok B -> 255 < w \/ Forall (gentle w) (channels A B) ->
  Forall (gentle w) (channels A B).
Proof.
  intros OA OB [H | H]; [|exact H].
  apply Forall_channels; try assumption. intros c1 c2 H1 H2. apply gentle_wide; assumption.
Qed.

Lemma within_rounding_refl v : within_rounding v v.
Proof. unfold within_rounding. lia. Qed.



(** C3, amended: column 0 of a horizontal gradient is the start colour
    exactly.  The last column is interpolated at ratio
    [(width - 1) / width], not 1: per channel it differs from the end
    value by at most [|end - start| / width + 1] (whole division), hence
    by at most 1 whenever the channel changes by less than the width,
    and so for every width above 255; then both end columns are within
    rounding of the two colours.  Per channel every column lies between
    the start and the end value, and the values never decrease along the
    columns when the channel rises, never increase when it falls. *)
Theorem create_gradient_ends_monotone E width height color1 color2 A B :
  0 < width -> 0 < height ->
  hex_to_rgb color1 = Ok A -> hex_to_rgb color2 = Ok B ->
  rgb_ok A -> rgb_ok B ->
  gradient_profile E width height color1 color2 A B.
Proof.
  intros Hw Hh HA HB OA OB.
  destruct (@create_gradient_getpixel E width height color1 color2 A B)
    as (img & Himg & _ & _ & _ & Hpx); try assumption.
  exists img. split; [exact Himg|]. split; [exact Hpx|]. split; [|split].
  - intros y Hy. rewrite Hpx by lia.
    destruct A as [[r1 g1] b1]. destruct B as [[r2 g2] b2].
    destruct OA as (Hr1 & Hg1 & Hb1).
    cbn. rewrite !column_channel_first by assumption. reflexivity.
  - apply Forall_channels; try assumption.
    intros c1 c2 H1 H2. unfold channel_profile. cbn [fst snd].
    split; [apply column_channel_first; exact H1|].
    split; [apply column_channel_last; assumption|].
    split; [apply column_channel_last_gentle; assumption|].
    split.
    + intros x Hx. apply column_channel_between; assumption.
    + intros x x' Hx Hx'. apply column_channel_mono; lia.
  - intros Hg. pose proof (@gentle_channels A B width OA OB Hg) as G.
    intros y Hy.
    exists (gradient_pixel A B 0 width), (gradient_pixel A B (width - 1) width).
    split; [apply Hpx; lia|]. split; [apply Hpx; lia|].
    destruct A as [[r1 g1] b1]. destruct B as [[r2 g2] b2].
    destruct OA as (Hr1 & Hg1 & Hb1). destruct OB as (Hr2 & Hg2 & Hb2).
    unfold channels in G.
    inversion G as [|? ? Gr G']; subst. inversion G' as [|? ? Gg G'']; subst.
    inversion G'' as [|? ? Gb _]; subst.
    cbn [gradient_pixel pixel_rgb rgb_list]. split.
    + rewrite !column_channel_first by assumption.
      repeat constructor; apply within_rounding_refl.
    + repeat constructor; apply column_channel_last_gentle; assumption.
Qed.

Lemma create_gradient_ends_monotone_witness :
  gradient_profile sample_env 1200 630 "#2563EB" "#7C3AED" (37, 99, 235) (124, 58, 237).
Proof.
  apply (@create_gradient_ends_monotone sample_env 1200 630 "#2563EB" "#7C3AED"
           (37, 99, 235) (124, 58, 237));
    first [reflexivity | unfold rgb_ok, channel_ok; lia].
Defined.

(** The spec's wording fails on a narrow gradient: over a width of 2
    from black to white the last column is interpolated at ratio 1/2 and
    holds 127, far from the end value 255. *)
Lemma ends_within_rounding_counterexample :
  exists img,
    snd (create_gradient sample_env 2 1 "#000000" "#FFFFFF" "horizontal") = Ok img
    /\ getpixel img (2 - 1) 0 = Some (127, 127, 127, 255)
    /\ ~ ends_within_rounding img (0, 0, 0) (255, 255, 255) 2 1.
Proof.
  destruct (@create_gradient_getpixel sample_env 2 1 "#000000" "#FFFFFF"
              (0, 0, 0) (255, 255, 255))
    as (img & Himg & _ & _ & _ & Hpx);
    try first [reflexivity | unfold rgb_ok, channel_ok; lia].
  exists img. split; [exact Himg|].
  assert (P : getpixel img (2 - 1) 0 = Some (127, 127, 127, 255)).
  { rewrite Hpx by lia. vm_compute. reflexivity. }
  split; [exact P|].
  intros C. destruct (C 0 ltac:(lia)) as (p0 & p1 & _ & Hp1 & _ & HF).
  rewrite P in Hp1. injection Hp1 as <-. cbn in HF.
  inversion HF as [|? ? ? ? H _]. unfold within_rounding in H. lia.
Qed.

(* ===================================================================== *)
(** * Font resolution: facts                                              *)
(* ===================================================================== *)

Lemma font_names_families bold : font_names bold = [dejavu bold; liberation bold].
Proof. destruct bold; reflexivity. Qed.

Lemma truetype_loads E path size :
  loads E path size ->
  truetype E path size = ([Call (CTruetype path size)], Ok (TrueType path size)).
Proof. unfold loads, truetype. intros ->. reflexivity. Qed.

Lemma truetype_fails E path size e :
  truetype_error E path size = Some e ->
  truetype E path size = ([Call (CTruetype path size)], Raise e).
Proof. unfold truetype. intros ->. reflexivity. Qed.

Lemma try_fonts_not_OSError E size names : snd (try_fonts E names size) <> Raise OSError.
Proof.
  induction names as [|n names IH]; cbn [try_fonts].
  - discriminate.
  - unfold try_except_OSError.
    destruct (truetype_error E n size) as [e|] eqn:T.
    + rewrite (@truetype_fails _ _ _ _ T).
      destruct (is_OSError e) eqn:O.
      * destruct (try_fonts E names size) as [l r]. exact IH.
      * cbn. intros C. injection C as ->. discriminate O.
    + rewrite (@truetype_loads _ _ _ T). discriminate.
Qed.

Lemma try_fonts_returns E size names :
  (forall p e, truetype_error E p size = Some e -> e = OSError) ->
  exists f, snd (try_fonts E names size) = Ok f.
Proof.
  intros H. induction names as [|n names IH]; cbn [try_fonts].
  - exists DefaultFont. reflexivity.
  - unfold try_except_OSError.
    destruct (truetype_error E n size) as [e|] eqn:T.
    + rewrite (@truetype_fails _ _ _ _ T), (H _ _ T). cbn [is_OSError].
      destruct (try_fonts E names size) as [l r]. exact IH.
    + rewrite (@truetype_loads _ _ _ T). eexists. reflexivity.
Qed.

(** X1: [get_font] tries the DejaVu file of the requested weight, then
    the Liberation one, then the built-in font: it returns the first that
    loads without trying the rest, a missing file ([OSError]) moves on to
    the next candidate, and [get_font] itself never raises [OSError]. *)
Theorem get_font_resolution E size bold :
  let d := dejavu bold in
  let l := liberation bold in
  font_names bold = [d; l]
  /\ (loads E d size ->
      get_font E size bold = ([Call (CTruetype d size)], Ok (TrueType d size)))
  /\ (missing E d size -> loads E l size ->
      get_font E size bold
      = ([Call (CTruetype d size); Call (CTruetype l size)], Ok (TrueType l size)))
  /\ (missing E d size -> missing E l size ->
      get_font E size bold
      = ([Call (CTruetype d size); Call (CTruetype l size); Call CLoadDefault],
         Ok DefaultFont))
  /\ snd (get_font E size bold) <> Raise OSError
  /\ ((forall p e, truetype_error E p size = Some e -> e = OSError) ->
      exists f, snd (get_font E size bold) = Ok f).
Proof.
  cbv zeta. split; [apply font_names_families|].
  unfold get_font. rewrite font_names_families. cbn [try_fonts].
  repeat split.
  - intros Hd. rewrite (@truetype_loads _ _ _ Hd). reflexivity.
  - intros Hd Hl. rewrite (@truetype_fails _ _ _ _ Hd), (@truetype_loads _ _ _ Hl). reflexivity.
  - intros Hd Hl. rewrite (@truetype_fails _ _ _ _ Hd), (@truetype_fails _ _ _ _ Hl). reflexivity.
  - apply (@try_fonts_not_OSError E size [dejavu bold; liberation bold]).
  - intros H. apply (@try_fonts_returns E size [dejavu bold; liberation bold] H).
Qed.

(* ===================================================================== *)
(** * Image assembly: facts                                               *)
(* ===================================================================== *)

Lemma runs_bind {A B : Type} (m : M A) (k : A -> M B) l1 a l2 b :
  m = (l1, Ok a) -> k a = (l2, Ok b) -> bind m k = ((l1 ++ l2)%list, Ok b).
Proof. intros -> H. unfold bind. rewrite H. reflexivity. Qed.

Lemma for_each_runs {A S : Type} (evs : A -> list event) (step : S -> A -> S)
      (body : A -> S -> M S) :
  (forall x s, body x s = (evs x, Ok (step s x))) ->
  forall xs s, for_each xs body s = (flat_map evs xs, Ok (fold_left step xs s)).
Proof.
  intros Hb. induction xs as [|x xs IH]; intros s.
  - reflexivity.
  - cbn [for_each flat_map fold_left]. apply runs_bind with (a := step s x); [apply Hb | apply IH].
Qed.

(** ** Shapes *)

Lemma shape_inv im m w h :
  shape im = (m, w, h) -> im_mode im = m /\ im_width im = w /\ im_height im = h.
Proof.
  intros H. repeat split.
  - exact (f_equal (fun s => fst (fst s)) H).
  - exact (f_equal (fun s => snd (fst s)) H).
  - exact (f_equal snd H).
Qed.

Lemma shape_paint cover p im : shape (paint cover p im) = shape im.
Proof. reflexivity. Qed.

Lemma shape_fold {A : Type} (f : image -> A -> image) :
  (forall im a, shape (f im a) = shape im) ->
  forall xs im, shape (fold_left f xs im) = shape im.
Proof.
  intros H. induction xs as [|x xs IH]; intros im; cbn [fold_left].
  - reflexivity.
  - rewrite IH. apply H.
Qed.

Lemma shape_gradient E A B w h : shape (gradient_image E A B w h) = (RGB, w, h).
Proof. unfold gradient_image. rewrite shape_fold; reflexivity. Qed.

Lemma shape_decor E w h im : shape (decor_image E w h im) = shape im.
Proof. unfold decor_image. rewrite !shape_fold; reflexivity. Qed.

Lemma shape_overlay E im :
  shape (overlay_image E im) = (RGBA, im_width im, im_height im).
Proof. reflexivity. Qed.

Lemma shape_text_step E im t : shape (text_step E im t) = shape im.
Proof. destruct t as [[[text y] fl] f]. reflexivity. Qed.

Lemma shape_canvas E cfg : shape (og_canvas E cfg) = (RGBA, WIDTH, HEIGHT).
Proof.
  unfold og_canvas. rewrite shape_fold by reflexivity.
  rewrite shape_fold by apply shape_text_step.
  rewrite shape_overlay.
  pose proof (shape_decor E WIDTH HEIGHT
                (gradient_image E (start_colour cfg) (end_colour cfg) WIDTH HEIGHT)) as H.
  rewrite shape_gradient in H. destruct (shape_inv H) as (_ & Hw & Hh).
  rewrite Hw, Hh. reflexivity.
Qed.

Lemma shape_og_image E cfg : shape (og_image E cfg) = (RGB, WIDTH, HEIGHT).
Proof.
  destruct (shape_inv (shape_canvas E cfg)) as (_ & Hw & Hh).
  unfold og_image, shape. cbn [convert_image im_mode im_width im_height].
  rewrite Hw, Hh. reflexivity.
Qed.

Ltac run_with H := rewrite (bind_ok _ H); cbv beta; cbn [fst snd].

Lemma flat_map_single {A B : Type} (f : A -> B) xs :
  flat_map (fun x => [f x]) xs = map f xs.
Proof. induction xs as [|x xs IH]; [reflexivity | cbn; rewrite IH; reflexivity]. Qed.

Lemma create_gradient_runs E w h color1 color2 A B :
  0 <= w -> 0 <= h -> hex_to_rgb color1 = Ok A -> hex_to_rgb color2 = Ok B ->
  create_gradient E w h color1 color2 "horizontal"
  = (gradient_calls A B w h, Ok (gradient_image E A B w h)).
Proof. apply create_gradient_run. Qed.

Lemma draw_line_runs E im p0 p1 f width :
  draw_line E im p0 p1 f width = ([line_call f width (p0, p1)], Ok (stroke E f width im (p0, p1))).
Proof. reflexivity. Qed.

Lemma decor_runs E im w h :
  w <> 0 -> h <> 0 ->
  add_decorative_elements E im w h = (decor_calls w h, Ok (decor_image E w h im)).
Proof.
  intros Hw Hh. unfold add_decorative_elements.
  assert (Hdots :
    for_each (range 20)
      (fun i img =>
         m <- py_mod (i * 150) w ;;
         (let x := m + 50 in
          y <- py_mod (i * 80) h ;;
          (let radius := 3 + i mod 3 in
           draw_ellipse E img (x - radius, y - radius, x + radius, y + radius)
             (Fill4 255 255 255 30)))) im
    = (map (fun i => Call (CEllipse (dot_box w h i) dot_fill)) (range 20),
       Ok (fold_left (paint_dot E w h) (range 20) im))).
  { rewrite <- flat_map_single. apply for_each_runs.
    intros i s. unfold py_mod.
    rewrite (proj2 (Z.eqb_neq w 0) Hw), (proj2 (Z.eqb_neq h 0) Hh). reflexivity. }
  run_with Hdots.
  rewrite draw_line_runs. cbn [bind]. rewrite draw_line_runs.
  unfold decor_calls, decor_image, guide_lines. cbn [map fold_left app]. reflexivity.
Qed.

Lemma get_font_runs E size bold :
  healthy E ->
  get_font E size bold = (fst (get_font E size bold), Ok (font_of E size bold)).
Proof.
  intros (Hf & _).
  destruct (@try_fonts_returns E size (font_names bold) (fun p e => Hf p size e)) as [f Hr].
  unfold font_of, value. fold (get_font E size bold) in Hr. rewrite Hr.
  destruct (get_font E size bold) as [l r]. cbn in *. rewrite Hr. reflexivity.
Qed.

Lemma centered_text_runs E im text y fl f :
  healthy E ->
  centered_text E im text y fl f
  = (text_calls E (text, y, fl, f), Ok (text_step E im (text, y, fl, f))).
Proof.
  intros (_ & Ht & _).
  unfold centered_text, textbbox, draw_text, text_calls, text_step, text_x.
  rewrite Ht. destruct (text_extent E f text) as [[[l t] r] b].
  cbn [fst snd emit bind ret app]. rewrite !Z.add_0_r. reflexivity.
Qed.

Lemma corner_accents_runs E im :
  corner_accents E im = (accent_calls, Ok (fold_left (stroke E accent_color 4) accent_lines im)).
Proof. reflexivity. Qed.

Lemma save_runs E im path :
  healthy E -> save E im path = ([Call (CSave path); Write path im], Ok tt).
Proof. intros (_ & _ & Hs & _). unfold save. rewrite Hs. reflexivity. Qed.

Lemma Draw_runs im m : im_mode im = m -> ImageDraw_Draw im = ([Call (CDraw m)], Ok tt).
Proof. intros <-. reflexivity. Qed.

Lemma alpha_composite_runs E im1 im2 :
  im_mode im1 = RGBA -> im_mode im2 = RGBA ->
  im_width im1 = im_width im2 -> im_height im1 = im_height im2 ->
  alpha_composite E im1 im2 = ([Call CComposite], Ok (composite_image E im1 im2)).
Proof.
  intros M1 M2 Hw Hh. unfold alpha_composite.
  rewrite M1, M2, Hw, Hh, !Z.eqb_refl. reflexivity.
Qed.

Lemma Image_new_runs m w h c :
  0 <= w -> 0 <= h ->
  Image_new m w h c = ([Call (CNew m w h)], Ok (mkImage m w h (fun _ _ => c))).
Proof.
  intros Hw Hh. unfold Image_new.
  rewrite (proj2 (Z.ltb_ge w 0) Hw), (proj2 (Z.ltb_ge h 0) Hh). reflexivity.
Qed.

Lemma convert_runs im m : convert im m = ([Call (CConvert m)], Ok (convert_image im m)).
Proof. reflexivity. Qed.

Lemma print_runs E line :
  print_error E line = None -> print E line = ([Print line], Ok tt).
Proof. intros H. unfold print. rewrite H. reflexivity. Qed.

Lemma print_fails E line e :
  print_error E line = Some e -> print E line = ([PrintFails line], Raise e).
Proof. intros H. unfold print. rewrite H. reflexivity. Qed.

Lemma table_entry key cfg :
  In (key, cfg) FORMATS ->
  lookup FORMATS key = ([], Ok cfg)
  /\ hex_to_rgb (fst (gradient cfg)) = Ok (start_colour cfg)
  /\ hex_to_rgb (snd (gradient cfg)) = Ok (end_colour cfg)
  /\ rgb_ok (start_colour cfg) /\ rgb_ok (end_colour cfg).
Proof.
  intros H. cbn in H.
  repeat (destruct H as [H | H];
          [injection H as <- <-;
           repeat split; first [reflexivity | vm_compute; intros; discriminate] |]).
  contradiction.
Qed.

Lemma WIDTH_pos : 0 < WIDTH.
Proof. reflexivity. Qed.

Lemma HEIGHT_pos : 0 < HEIGHT.
Proof. reflexivity. Qed.

Lemma og_trace_steps E cfg dir :
  ([] ++ gradient_calls (start_colour cfg) (end_colour cfg) WIDTH HEIGHT
   ++ [Call (CDraw RGB)]
   ++ decor_calls WIDTH HEIGHT
   ++ [Call (CNew RGBA WIDTH HEIGHT)] ++ [Call (CConvert RGBA)] ++ [Call CComposite]
   ++ [Call (CDraw RGBA)]
   ++ fst (get_font E 72 true) ++ fst (get_font E 42 true) ++ fst (get_font E 28 false)
   ++ fst (get_font E 60 true) ++ fst (get_font E 24 true)
   ++ text_calls E (icon cfg, HEIGHT / 2 - 150, FillWhite, font_of E 60 true)
   ++ text_calls E (title cfg, HEIGHT / 2 - 60, FillWhite, font_of E 72 true)
   ++ text_calls E (subtitle cfg, HEIGHT / 2 + 30, Fill4 255 255 255 220, font_of E 42 true)
   ++ text_calls E (tagline cfg, HEIGHT / 2 + 100, Fill4 255 255 255 180, font_of E 28 false)
   ++ text_calls E ("uberpadel.com", HEIGHT - 50, Fill4 255 255 255 150, font_of E 24 true)
   ++ accent_calls
   ++ [Call (CConvert RGB)]
   ++ [Call (CSave (og_path dir cfg)); Write (og_path dir cfg) (og_image E cfg)]
   ++ [Print ("✅ Created " ++ filename cfg)] ++ [])%list
  = og_trace E cfg dir.
Proof.
  unfold og_trace, font_calls, canvas_handle, overlay_calls, save_calls, layout.
  cbn [flat_map app]. rewrite <- !app_assoc. cbn [app]. reflexivity.
Qed.

(** X11: the order of a run of [create_og_image] for a key of the table
    in a healthy environment ([og_trace]): the gradient canvas, its
    drawing handle and its column lines; a second handle on the canvas,
    the twenty dots and the two guide lines; the overlay, the conversion
    to RGBA, the composite and a handle on the composed image; the five
    fonts (72 bold, 42 bold, 28 regular, 60 bold, 24 bold); icon, title,
    subtitle, tagline and brand, each measured then drawn; the eight
    corner accents; the conversion to RGB, the save and the line that
    reports it.  It returns the output path. *)
Lemma create_og_image_runs E key cfg dir :
  healthy E -> In (key, cfg) FORMATS ->
  create_og_image E key dir = (og_trace E cfg dir, Ok (og_path dir cfg)).
Proof.
  intros H Hin. destruct (table_entry Hin) as (Hl & HA & HB & OA & OB).
  pose proof WIDTH_pos as Wp. pose proof HEIGHT_pos as Hp.
  rewrite <- og_trace_steps.
  destruct (shape_inv
              (eq_trans
                 (shape_decor E WIDTH HEIGHT
                    (gradient_image E (start_colour cfg) (end_colour cfg) WIDTH HEIGHT))
                 (shape_gradient E (start_colour cfg) (end_colour cfg) WIDTH HEIGHT)))
    as (_ & Dw & Dh).
  destruct (shape_inv (shape_gradient E (start_colour cfg) (end_colour cfg) WIDTH HEIGHT))
    as (Gm & _ & _).
  unfold create_og_image.
  apply runs_bind with (a := cfg); [exact Hl|].
  eapply runs_bind; [apply create_gradient_runs; first [lia | assumption]|].
  eapply runs_bind; [apply Draw_runs; exact Gm|].
  eapply runs_bind; [apply decor_runs; lia|].
  eapply runs_bind; [apply Image_new_runs; lia|].
  eapply runs_bind; [apply convert_runs|].
  eapply runs_bind; [apply alpha_composite_runs; first [reflexivity | assumption]|].
  eapply runs_bind; [apply Draw_runs; reflexivity|].
  eapply runs_bind; [apply (get_font_runs 72 true H)|].
  eapply runs_bind; [apply (get_font_runs 42 true H)|].
  eapply runs_bind; [apply (get_font_runs 28 false H)|].
  eapply runs_bind; [apply (get_font_runs 60 true H)|].
  eapply runs_bind; [apply (get_font_runs 24 true H)|].
  cbv zeta.
  eapply runs_bind; [apply (centered_text_runs _ _ _ _ _ H)|].
  eapply runs_bind; [apply (centered_text_runs _ _ _ _ _ H)|].
  eapply runs_bind; [apply (centered_text_runs _ _ _ _ _ H)|].
  eapply runs_bind; [apply (centered_text_runs _ _ _ _ _ H)|].
  eapply runs_bind; [apply (centered_text_runs _ _ _ _ _ H)|].
  eapply runs_bind; [apply corner_accents_runs|].
  eapply runs_bind; [apply convert_runs|].
  eapply runs_bind; [apply (save_runs _ _ H)|].
  eapply runs_bind; [apply print_runs, H|].
  reflexivity.
Qed.

Lemma runs_bind_tail {A B : Type} (m : M A) (k : A -> M B) l1 a l r :
  m = (l1, Ok a) -> k a = (l, r) -> bind m k = ((l1 ++ l)%list, r).
Proof. intros -> H. unfold bind. rewrite H. reflexivity. Qed.

Lemma healthy_renders E : healthy E -> renders E.
Proof. intros (Hf & Ht & _). split; assumption. Qed.

Lemma get_font_returns E size bold :
  renders E ->
  get_font E size bold = (fst (get_font E size bold), Ok (font_of E size bold)).
Proof.
  intros (Hf & _).
  destruct (@try_fonts_returns E size (font_names bold) (fun p e => Hf p size e)) as [f Hr].
  unfold font_of, value. fold (get_font E size bold) in Hr. rewrite Hr.
  destruct (get_font E size bold) as [l r]. cbn in *. rewrite Hr. reflexivity.
Qed.

Lemma centered_text_draws E im text y fl f :
  renders E ->
  centered_text E im text y fl f
  = (text_calls E (text, y, fl, f), Ok (text_step E im (text, y, fl, f))).
Proof.
  intros (_ & Ht).
  unfold centered_text, textbbox, draw_text, text_calls, text_step, text_x.
  rewrite Ht. destruct (text_extent E f text) as [[[l t] r] b].
  cbn [fst snd emit bind ret app]. rewrite !Z.add_0_r. reflexivity.
Qed.

Lemma og_draw_trace_steps E cfg l :
  ([] ++ gradient_calls (start_colour cfg) (end_colour cfg) WIDTH HEIGHT
   ++ [Call (CDraw RGB)]
   ++ decor_calls WIDTH HEIGHT
   ++ [Call (CNew RGBA WIDTH HEIGHT)] ++ [Call (CConvert RGBA)] ++ [Call CComposite]
   ++ [Call (CDraw RGBA)]
   ++ fst (get_font E 72 true) ++ fst (get_font E 42 true) ++ fst (get_font E 28 false)
   ++ fst (get_font E 60 true) ++ fst (get_font E 24 true)
   ++ text_calls E (icon cfg, HEIGHT / 2 - 150, FillWhite, font_of E 60 true)
   ++ text_calls E (title cfg, HEIGHT / 2 - 60, FillWhite, font_of E 72 true)
   ++ text_calls E (subtitle cfg, HEIGHT / 2 + 30, Fill4 255 255 255 220, font_of E 42 true)
   ++ text_calls E (tagline cfg, HEIGHT / 2 + 100, Fill4 255 255 255 180, font_of E 28 false)
   ++ text_calls E ("uberpadel.com", HEIGHT - 50, Fill4 255 255 255 150, font_of E 24 true)
   ++ accent_calls
   ++ [Call (CConvert RGB)] ++ l)%list
  = (og_draw_trace E cfg ++ l)%list.
Proof.
  unfold og_draw_trace, font_calls, canvas_handle, overlay_calls, layout.
  cbn [flat_map app].
  repeat (progress (rewrite <- ?app_assoc; cbn [app])).
  reflexivity.
Qed.

(** The drawing part of [create_og_image], for any outcome of the save. *)
Lemma create_og_image_draws E key cfg dir :
  renders E -> In (key, cfg) FORMATS ->
  create_og_image E key dir
  = ((og_draw_trace E cfg ++ fst (finish E cfg dir))%list, snd (finish E cfg dir)).
Proof.
  intros H Hin. destruct (table_entry Hin) as (Hl & HA & HB & OA & OB).
  pose proof WIDTH_pos as Wp. pose proof HEIGHT_pos as Hp.
  rewrite <- og_draw_trace_steps.
  destruct (shape_inv
              (eq_trans
                 (shape_decor E WIDTH HEIGHT
                    (gradient_image E (start_colour cfg) (end_colour cfg) WIDTH HEIGHT))
                 (shape_gradient E (start_colour cfg) (end_colour cfg) WIDTH HEIGHT)))
    as (_ & Dw & Dh).
  destruct (shape_inv (shape_gradient E (start_colour cfg) (end_colour cfg) WIDTH HEIGHT))
    as (Gm & _ & _).
  unfold create_og_image.
  apply runs_bind_tail with (a := cfg); [exact Hl|].
  eapply runs_bind_tail; [apply create_gradient_runs; first [lia | assumption]|].
  eapply runs_bind_tail; [apply Draw_runs; exact Gm|].
  eapply runs_bind_tail; [apply decor_runs; lia|].
  eapply runs_bind_tail; [apply Image_new_runs; lia|].
  eapply runs_bind_tail; [apply convert_runs|].
  eapply runs_bind_tail; [apply alpha_composite_runs; first [reflexivity | assumption]|].
  eapply runs_bind_tail; [apply Draw_runs; reflexivity|].
  eapply runs_bind_tail; [apply (get_font_returns 72 true H)|].
  eapply runs_bind_tail; [apply (get_font_returns 42 true H)|].
  eapply runs_bind_tail; [apply (get_font_returns 28 false H)|].
  eapply runs_bind_tail; [apply (get_font_returns 60 true H)|].
  eapply runs_bind_tail; [apply (get_font_returns 24 true H)|].
  cbv zeta.
  eapply runs_bind_tail; [apply (centered_text_draws _ _ _ _ _ H)|].
  eapply runs_bind_tail; [apply (centered_text_draws _ _ _ _ _ H)|].
  eapply runs_bind_tail; [apply (centered_text_draws _ _ _ _ _ H)|].
  eapply runs_bind_tail; [apply (centered_text_draws _ _ _ _ _ H)|].
  eapply runs_bind_tail; [apply (centered_text_draws _ _ _ _ _ H)|].
  eapply runs_bind_tail; [apply corner_accents_runs|].
  eapply runs_bind_tail; [apply convert_runs|].
  apply surjective_pairing.
Qed.

(** ** Files written *)

Lemma writes_app l1 l2 : writes (l1 ++ l2) = (writes l1 ++ writes l2)%list.
Proof. unfold writes. apply flat_map_app. Qed.

Lemma writes_calls l : forallb is_call l = true -> writes l = [].
Proof.
  induction l as [|ev l IH]; [reflexivity|]. cbn [forallb]. intros H.
  apply andb_prop in H. destruct H as [Hc Hl].
  destruct ev; try discriminate. cbn. apply IH. exact Hl.
Qed.

Lemma calls_map {A : Type} (f : A -> call) xs :
  forallb is_call (map (fun x => Call (f x)) xs) = true.
Proof. induction xs as [|x xs IH]; [reflexivity | exact IH]. Qed.

Lemma try_fonts_calls E size names : forallb is_call (fst (try_fonts E names size)) = true.
Proof.
  induction names as [|n names IH]; cbn [try_fonts].
  - reflexivity.
  - unfold try_except_OSError, truetype.
    destruct (truetype_error E n size) as [e|]; cbn.
    + destruct (is_OSError e); [|reflexivity].
      destruct (try_fonts E names size) as [l r]. cbn in *. exact IH.
    + reflexivity.
Qed.

Lemma og_draw_trace_calls E cfg : forallb is_call (og_draw_trace E cfg) = true.
Proof.
  unfold og_draw_trace, gradient_calls, canvas_handle, decor_calls, overlay_calls, font_calls,
    accent_calls, line_call, get_font.
  rewrite !forallb_app. cbn [forallb is_call andb].
  rewrite !calls_map, !try_fonts_calls. reflexivity.
Qed.

(** ** Pixels under strokes and dots *)

Lemma fold_stroke_px E f w ls : forall im x y,
  in_image im x y = true ->
  im_px (fold_left (stroke E f w) ls im) x y
  = if lines_cover E w ls x y then ink (im_mode im) f else im_px im x y.
Proof.
  induction ls as [|s ls IH]; intros im x y Hin; cbn [fold_left lines_cover existsb].
  - reflexivity.
  - rewrite IH by exact Hin. unfold lines_cover.
    change (im_mode (stroke E f w im s)) with (im_mode im).
    change (im_px (stroke E f w im s) x y)
      with (if in_image im x y && line_cover E (fst s) (snd s) w x y
            then ink (im_mode im) f else im_px im x y).
    rewrite Hin. cbn [andb].
    destruct (line_cover E (fst s) (snd s) w x y); cbn [orb].
    + destruct (existsb _ ls); reflexivity.
    + reflexivity.
Qed.

Lemma fold_dot_px E w h ds : forall im x y,
  in_image im x y = true ->
  im_px (fold_left (paint_dot E w h) ds im) x y
  = if existsb (fun i => ellipse_cover E (dot_box w h i) x y) ds
    then ink (im_mode im) dot_fill else im_px im x y.
Proof.
  induction ds as [|i ds IH]; intros im x y Hin; cbn [fold_left existsb].
  - reflexivity.
  - rewrite IH by exact Hin.
    change (im_mode (paint_dot E w h im i)) with (im_mode im).
    change (im_px (paint_dot E w h im i) x y)
      with (if in_image im x y && ellipse_cover E (dot_box w h i) x y
            then ink (im_mode im) dot_fill else im_px im x y).
    rewrite Hin. cbn [andb].
    destruct (ellipse_cover E (dot_box w h i) x y); cbn [orb].
    + destruct (existsb _ ds); reflexivity.
    + reflexivity.
Qed.

Lemma in_image_shape im im' x y :
  shape im' = shape im -> in_image im' x y = in_image im x y.
Proof.
  intros H. destruct (shape_inv H) as (_ & Hw & Hh).
  unfold in_image. rewrite Hw, Hh. reflexivity.
Qed.

Lemma damages_app l1 l2 : damages (l1 ++ l2) = (damages l1 ++ damages l2)%list.
Proof. unfold damages. apply flat_map_app. Qed.

Lemma damages_calls l : forallb is_call l = true -> damages l = [].
Proof.
  induction l as [|ev l IH]; [reflexivity|]. cbn [forallb]. intros H.
  apply andb_prop in H. destruct H as [Hc Hl].
  destruct ev; try discriminate. cbn. apply IH. exact Hl.
Qed.

Lemma finish_saves E cfg dir :
  save_result E (og_path dir cfg) (og_image E cfg) = Saved ->
  print_error E ("✅ Created " ++ filename cfg) = None ->
  finish E cfg dir
  = ([Call (CSave (og_path dir cfg)); Write (og_path dir cfg) (og_image E cfg);
      Print ("✅ Created " ++ filename cfg)], Ok (og_path dir cfg)).
Proof. intros H P. unfold finish, save, print. rewrite H, P. reflexivity. Qed.

Lemma finish_fails E cfg dir e :
  save_exn (save_result E (og_path dir cfg) (og_image E cfg)) = Some e ->
  finish E cfg dir
  = (Call (CSave (og_path dir cfg))
       :: aftermath (save_result E (og_path dir cfg) (og_image E cfg))
            (og_path dir cfg) (og_image E cfg),
     Raise e).
Proof.
  intros H. unfold finish, save.
  destruct (save_result E (og_path dir cfg) (og_image E cfg)) as [|e'|e'];
    [discriminate H | |]; injection H as ->; reflexivity.
Qed.

Lemma finish_unreported E cfg dir e :
  save_result E (og_path dir cfg) (og_image E cfg) = Saved ->
  print_error E ("✅ Created " ++ filename cfg) = Some e ->
  finish E cfg dir
  = ([Call (CSave (og_path dir cfg)); Write (og_path dir cfg) (og_image E cfg);
      PrintFails ("✅ Created " ++ filename cfg)], Raise e).
Proof. intros H P. unfold finish, save, print. rewrite H, P. reflexivity. Qed.

(** X12: In a healthy environment (fonts load or are missing, text
    renders, files can be written, standard output takes every line)
    [create_og_image] returns the joined path, writes that one file and
    nothing else, and the image it writes is an RGB image of 1200 by
    630. *)
Theorem create_og_image_output E key cfg dir :
  healthy E -> In (key, cfg) FORMATS ->
  snd (create_og_image E key dir) = Ok (path_join dir (filename cfg))
  /\ exists img,
       writes (fst (create_og_image E key dir)) = [(path_join dir (filename cfg), img)]
       /\ shape img = (RGB, 1200, 630).
Proof.
  intros H Hin. destruct H as (Hf & Ht & Hs & Hp).
  rewrite (@create_og_image_draws E key cfg dir (conj Hf Ht) Hin).
  rewrite (finish_saves E cfg dir (Hs _ _) (Hp _)). cbn [fst snd]. split; [reflexivity|].
  exists (og_image E cfg). split; [|apply shape_og_image].
  rewrite writes_app, (writes_calls _ (og_draw_trace_calls E cfg)). reflexivity.
Qed.

(** X13: When the save raises, the whole canvas has been drawn and the
    save is attempted; the error of the save comes out unchanged, no
    complete file is written and no line is printed.  A save that raised
    before it opened the target leaves the disk as it was; one that
    raised after it opened the target leaves that one file damaged, and
    no other. *)
Theorem create_og_image_save_fails E key cfg dir e :
  renders E -> In (key, cfg) FORMATS ->
  save_exn (save_result E (og_path dir cfg) (og_image E cfg)) = Some e ->
  create_og_image E key dir
  = ((og_draw_trace E cfg
        ++ Call (CSave (og_path dir cfg))
           :: aftermath (save_result E (og_path dir cfg) (og_image E cfg))
                (og_path dir cfg) (og_image E cfg))%list,
     Raise e)
  /\ writes (fst (create_og_image E key dir)) = []
  /\ damages (fst (create_og_image E key dir))
     = match save_result E (og_path dir cfg) (og_image E cfg) with
       | Broken _ => [og_path dir cfg]
       | _ => []
       end
  /\ forall line, ~ In (Print line) (fst (create_og_image E key dir)).
Proof.
  intros H Hin He.
  rewrite (@create_og_image_draws E key cfg dir H Hin).
  rewrite (finish_fails E cfg dir He). cbn [fst snd]. split; [reflexivity|].
  pose proof (og_draw_trace_calls E cfg) as Hc.
  destruct (save_result E (og_path dir cfg) (og_image E cfg)) as [|e'|e'];
    [discriminate He | |]; cbn [aftermath].
  - split; [|split].
    + rewrite writes_app, (writes_calls _ Hc). reflexivity.
    + rewrite damages_app, (damages_calls _ Hc). reflexivity.
    + intros line Hl. apply in_app_or in Hl. destruct Hl as [Hl | Hl].
      * rewrite forallb_forall in Hc. specialize (Hc _ Hl). discriminate Hc.
      * destruct Hl as [Hl | []]. discriminate Hl.
  - split; [|split].
    + rewrite writes_app, (writes_calls _ Hc). reflexivity.
    + rewrite damages_app, (damages_calls _ Hc). reflexivity.
    + intros line Hl. apply in_app_or in Hl. destruct Hl as [Hl | Hl].
      * rewrite forallb_forall in Hc. specialize (Hc _ Hl). discriminate Hc.
      * destruct Hl as [Hl | [Hl | []]]; discriminate Hl.
Qed.

(** X19: When the picture is saved but the line that reports it cannot be
    printed, [create_og_image] raises the error of [print] instead of
    returning the path: the file is on disk, complete, and the caller
    gets no path for it. *)
Theorem create_og_image_unreported E key cfg dir e :
  renders E -> In (key, cfg) FORMATS ->
  save_result E (og_path dir cfg) (og_image E cfg) = Saved ->
  print_error E ("✅ Created " ++ filename cfg) = Some e ->
  create_og_image E key dir
  = ((og_draw_trace E cfg
        ++ [ Call (CSave (og_path dir cfg)); Write (og_path dir cfg) (og_image E cfg);
             PrintFails ("✅ Created " ++ filename cfg) ])%list,
     Raise e)
  /\ writes (fst (create_og_image E key dir)) = [(og_path dir cfg, og_image E cfg)].
Proof.
  intros H Hin Hs Hp.
  rewrite (@create_og_image_draws E key cfg dir H Hin).
  rewrite (finish_unreported E cfg dir Hs Hp). cbn [fst snd]. split; [reflexivity|].
  rewrite writes_app, (writes_calls _ (og_draw_trace_calls E cfg)). reflexivity.
Qed.

Lemma lookup_missing table key :
  ~ In key (map fst table) -> lookup table key = ([], Raise KeyError).
Proof.
  induction table as [|[k v] table IH]; intros H; cbn [lookup].
  - reflexivity.
  - destruct (String.eqb_spec k key) as [-> | N].
    + exfalso. apply H. left. reflexivity.
    + apply IH. intros C. apply H. right. exact C.
Qed.

(** X14: A key that is not in the table: [KeyError] at once, nothing is
    drawn, loaded or written. *)
Theorem create_og_image_unknown_key E key dir :
  ~ In key (map fst FORMATS) -> create_og_image E key dir = ([], Raise KeyError).
Proof.
  intros H. unfold create_og_image. rewrite (lookup_missing FORMATS key H). reflexivity.
Qed.

Lemma ink_RGBA_accent : ink RGBA accent_color = (255, 255, 255, 100).
Proof. reflexivity. Qed.

(** X15: The corner accents in the saved file: wherever an accent line covers
    the canvas, the saved pixel is plain white, whatever was under it. *)
Theorem accents_opaque E key cfg dir :
  healthy E -> In (key, cfg) FORMATS ->
  exists img,
    writes (fst (create_og_image E key dir)) = [(path_join dir (filename cfg), img)]
    /\ forall x y, 0 <= x < WIDTH -> 0 <= y < HEIGHT ->
         lines_cover E 4 accent_lines x y = true ->
         getpixel img x y = Some white.
Proof.
  intros H Hin. destruct H as (Hf & Ht & Hs & Hp).
  rewrite (@create_og_image_draws E key cfg dir (conj Hf Ht) Hin).
  rewrite (finish_saves E cfg dir (Hs _ _) (Hp _)). cbn [fst snd].
  exists (og_image E cfg). split.
  { rewrite writes_app, (writes_calls _ (og_draw_trace_calls E cfg)). reflexivity. }
  intros x y Hx Hy Hc.
  destruct (shape_inv (shape_og_image E cfg)) as (_ & Iw & Ih).
  unfold getpixel.
  assert (Hin' : in_image (og_image E cfg) x y = true).
  { unfold in_image. rewrite Iw, Ih.
    repeat (apply andb_true_intro; split); first [apply Z.leb_le | apply Z.ltb_lt]; lia. }
  rewrite Hin'. f_equal.
  unfold og_image. cbn [convert_image im_px].
  unfold og_canvas.
  set (base := fold_left (text_step E) (layout E cfg) _).
  assert (Sb : shape base = (RGBA, WIDTH, HEIGHT)).
  { unfold base. rewrite shape_fold by apply shape_text_step.
    rewrite shape_overlay.
    destruct (shape_inv
                (eq_trans
                   (shape_decor E WIDTH HEIGHT
                      (gradient_image E (start_colour cfg) (end_colour cfg) WIDTH HEIGHT))
                   (shape_gradient E (start_colour cfg) (end_colour cfg) WIDTH HEIGHT)))
      as (_ & Dw & Dh).
    rewrite Dw, Dh. reflexivity. }
  destruct (shape_inv Sb) as (Bm & Bw & Bh).
  assert (Hb : in_image base x y = true).
  { unfold in_image. rewrite Bw, Bh.
    repeat (apply andb_true_intro; split); first [apply Z.leb_le | apply Z.ltb_lt]; lia. }
  rewrite (fold_stroke_px E accent_color 4 accent_lines base x y Hb).
  rewrite Hc, Bm, ink_RGBA_accent. reflexivity.
Qed.

Lemma ink_RGB_white_dot : ink RGB dot_fill = white.
Proof. reflexivity. Qed.

Lemma ink_RGB_white_guide : ink RGB guide_fill = white.
Proof. reflexivity. Qed.

(** X9: The decorations on an RGB canvas: the call succeeds for a canvas of
    non-zero size, keeps the shape, and turns exactly the pixels under a
    dot or a guide line plain white: the alpha of their fill is lost. *)
Theorem decorations_opaque E im w h :
  w <> 0 -> h <> 0 -> im_mode im = RGB ->
  exists im',
    add_decorative_elements E im w h = (decor_calls w h, Ok im')
    /\ shape im' = shape im
    /\ forall x y, in_image im x y = true ->
         im_px im' x y = if decor_cover E w h x y then white else im_px im x y.
Proof.
  intros Hw Hh Hm. exists (decor_image E w h im).
  split; [apply decor_runs; assumption|]. split; [apply shape_decor|].
  intros x y Hin. unfold decor_image, decor_cover.
  set (dotted := fold_left (paint_dot E w h) (range 20) im).
  assert (Sd : shape dotted = shape im) by (unfold dotted; apply shape_fold; reflexivity).
  destruct (shape_inv Sd) as (Dm & _ & _).
  rewrite fold_stroke_px by (rewrite (in_image_shape _ _ Sd); exact Hin).
  rewrite Dm, Hm, ink_RGB_white_guide.
  unfold dotted. rewrite fold_dot_px by exact Hin. rewrite Hm, ink_RGB_white_dot.
  destruct (lines_cover E 2 (guide_lines w h) x y); [rewrite orb_true_r; reflexivity|].
  rewrite orb_false_r. reflexivity.
Qed.

(** X10: A canvas of width or height zero: the first dot divides by zero, and
    nothing has been drawn. *)
Theorem decorations_zero_size E im w h :
  w = 0 \/ h = 0 ->
  add_decorative_elements E im w h = ([], Raise ZeroDivisionError).
Proof.
  intros H. unfold add_decorative_elements.
  change (range 20) with (0 :: map Z.of_nat (seq 1 19)). cbn [for_each].
  unfold py_mod at 1.
  destruct (Z.eqb_spec w 0) as [-> | Nw].
  - reflexivity.
  - destruct H as [-> | ->]; [contradiction|]. reflexivity.
Qed.

Lemma completes_run E key :
  completes E key ->
  create_og_image E key output_dir = (run_trace E key, Ok (run_path E key)).
Proof.
  intros [p Hp]. unfold run_trace, run_path, value. rewrite Hp.
  destruct (create_og_image E key output_dir) as [l r]. cbn in *. rewrite Hp. reflexivity.
Qed.

Lemma collect_ok E key acc :
  completes E key ->
  (path <- create_og_image E key output_dir ;; ret (acc ++ [path])%list)
  = (run_trace E key, Ok (acc ++ [run_path E key])%list).
Proof.
  intros H. rewrite (completes_run H). cbn [bind ret]. rewrite app_nil_r. reflexivity.
Qed.

Lemma collect_fails E key acc e :
  snd (create_og_image E key output_dir) = Raise e ->
  (path <- create_og_image E key output_dir ;; ret (acc ++ [path])%list)
  = (run_trace E key, Raise e).
Proof.
  intros He. unfold run_trace.
  destruct (create_og_image E key output_dir) as [l r]. cbn in He. subst r. reflexivity.
Qed.

Lemma generate_loop_ok E keys : forall acc,
  (forall k, In k keys -> completes E k) ->
  for_each keys
    (fun format_key created_files =>
       path <- create_og_image E format_key output_dir ;;
       ret (created_files ++ [path])%list) acc
  = (flat_map (run_trace E) keys, Ok (acc ++ map (run_path E) keys)%list).
Proof.
  induction keys as [|k keys IH]; intros acc H.
  - cbn. rewrite app_nil_r. reflexivity.
  - cbn [for_each flat_map map].
    eapply runs_bind.
    + apply collect_ok, H. left. reflexivity.
    + rewrite IH by (intros k' Hk; apply H; right; exact Hk).
      rewrite <- app_assoc. reflexivity.
Qed.

Lemma generate_loop_fails E keys1 key keys2 e : forall acc,
  (forall k, In k keys1 -> completes E k) ->
  snd (create_og_image E key output_dir) = Raise e ->
  for_each (keys1 ++ key :: keys2)
    (fun format_key created_files =>
       path <- create_og_image E format_key output_dir ;;
       ret (created_files ++ [path])%list) acc
  = (flat_map (run_trace E) (keys1 ++ [key]), Raise e).
Proof.
  induction keys1 as [|k keys1 IH]; intros acc H He.
  - cbn [app for_each flat_map]. rewrite app_nil_r.
    rewrite (collect_fails E key acc He). reflexivity.
  - cbn [app for_each flat_map].
    eapply runs_bind_tail.
    + apply collect_ok, H. left. reflexivity.
    + apply IH; [|exact He]. intros k' Hk. apply H. right. exact Hk.
Qed.

Lemma listing_runs E files :
  stdout_ok E ->
  for_each files (fun f (_ : unit) => print E ("   - " ++ basename f)) tt
  = (map (fun f => Print ("   - " ++ basename f)) files, Ok tt).
Proof.
  intros Hp. induction files as [|f files IH]; [reflexivity|].
  cbn [for_each map]. eapply (@runs_bind _ _ _ _ [_]); [apply print_runs, Hp | exact IH].
Qed.

(** The batch once its loop is known: the banner, the loop, the report.
    [H] says that every image completes, [Hp] that every line prints. *)
Ltac batch_completes E Hp H :=
  unfold main, generate_all;
  let G := fresh "G" in
  pose proof (@generate_loop_ok E (map fst FORMATS) [] H) as G; cbn [app] in G;
  revert G;
  generalize (flat_map (run_trace E) (map fst FORMATS));
  generalize (map (run_path E) (map fst FORMATS));
  generalize (for_each (map fst FORMATS)
                (fun format_key created_files =>
                   path <- create_og_image E format_key output_dir ;;
                   ret (created_files ++ [path])%list) []);
  let loop := fresh "loop" in
  let P := fresh "P" in
  let T := fresh "T" in
  intros loop P T ->;
  unfold banner, banner_lines, report; cbn [map];
  eapply (@runs_bind _ _ _ _ [_]); [apply print_runs, Hp|];
  eapply (@runs_bind _ _ _ _ [_]); [apply (@print_runs E _ (Hp _))|];
  eapply (@runs_bind _ _ _ _ [_]); [apply print_runs, Hp|];
  eapply runs_bind; [reflexivity|];
  eapply (@runs_bind _ _ _ _ [_]); [apply print_runs, Hp|];
  eapply (@runs_bind _ _ _ _ [_]); [apply print_runs, Hp|];
  eapply (@runs_bind _ _ _ _ [_]); [apply print_runs, Hp|];
  eapply (@runs_bind _ _ _ _ [_]); [apply print_runs, Hp|];
  apply listing_runs, Hp.

(** X16: The batch when standard output takes every line and every image
    completes: the images are made in table order, one path is collected
    per entry, and the count and the file names are reported at the
    end. *)
Theorem main_completes E :
  stdout_ok E ->
  (forall k, In k (map fst FORMATS) -> completes E k) ->
  main E
  = ((banner ++ flat_map (run_trace E) (map fst FORMATS)
        ++ report (map (run_path E) (map fst FORMATS)))%list, Ok tt).
Proof.
  intros Hp H. batch_completes E Hp H.
Qed.

(** X17: No recovery per image: once the three banner lines are printed,
    when one image raises, the batch raises the same error, the images
    before it have run, and nothing comes after: no later image and no
    report. *)
Theorem main_stops_at_first_failure E keys1 key keys2 e :
  (forall line, In line banner_lines -> print_error E line = None) ->
  map fst FORMATS = (keys1 ++ key :: keys2)%list ->
  (forall k, In k keys1 -> completes E k) ->
  snd (create_og_image E key output_dir) = Raise e ->
  main E = ((banner ++ flat_map (run_trace E) (keys1 ++ [key]))%list, Raise e).
Proof.
  intros Hp Hk H He. unfold main, generate_all. rewrite Hk.
  pose proof (@generate_loop_fails E keys1 key keys2 e [] H He) as G.
  revert G.
  generalize (flat_map (run_trace E) (keys1 ++ [key])) as T.
  generalize (for_each (keys1 ++ key :: keys2)
                (fun format_key created_files =>
                   path <- create_og_image E format_key output_dir ;;
                   ret (created_files ++ [path])%list) []) as loop.
  intros loop T ->.
  unfold banner, banner_lines. cbn [map].
  eapply (@runs_bind_tail _ _ _ _ [_]);
    [apply print_runs, Hp; cbn; auto|].
  eapply (@runs_bind_tail _ _ _ _ [_]);
    [apply (@print_runs E _ (Hp _ (or_intror (or_introl eq_refl))))|].
  eapply (@runs_bind_tail _ _ _ _ [_]);
    [apply print_runs, Hp; cbn; auto|].
  reflexivity.
Qed.

(** X20: The banner comes first: when standard output refuses one of its
    three lines, the batch raises the error of that [print] before any
    image is started, so no library call is made and no file is
    written. *)
Theorem main_banner_fails E lines1 line lines2 e :
  banner_lines = (lines1 ++ line :: lines2)%list ->
  (forall l, In l lines1 -> print_error E l = None) ->
  print_error E line = Some e ->
  main E = ((map Print lines1 ++ [PrintFails line])%list, Raise e)
  /\ writes (fst (main E)) = []
  /\ forallb (fun ev => negb (is_call ev)) (fst (main E)) = true.
Proof.
  intros Hl Hp He.
  assert (M : main E = ((map Print lines1 ++ [PrintFails line])%list, Raise e)).
  { unfold main, banner_lines in *.
    destruct lines1 as [|l1 [|l2 [|l3 [|l4 lines1]]]]; cbn [app] in Hl.
    - injection Hl as <- _. rewrite (bind_raise _ (@print_fails E _ _ He)). reflexivity.
    - injection Hl as <- <- _.
      eapply (@runs_bind_tail _ _ _ _ [_]); [apply print_runs, Hp; cbn; auto|].
      change ("   Size: " ++ str WIDTH ++ "x" ++ str HEIGHT ++ "px")%string
        with "   Size: 1200x630px".
      rewrite (bind_raise _ (@print_fails E _ _ He)). reflexivity.
    - injection Hl as <- <- <- _.
      eapply (@runs_bind_tail _ _ _ _ [_]); [apply print_runs, Hp; cbn; auto|].
      eapply (@runs_bind_tail _ _ _ _ [_]);
        [apply (@print_runs E _ (Hp _ (or_intror (or_introl eq_refl))))|].
      rewrite (bind_raise _ (@print_fails E _ _ He)). reflexivity.
    - exfalso. injection Hl as _ _ _ Hl. discriminate Hl.
    - exfalso. injection Hl as _ _ _ Hl. discriminate Hl. }
  rewrite M. cbn [fst]. split; [reflexivity|]. split.
  - unfold writes. rewrite flat_map_app. cbn [flat_map app].
    rewrite app_nil_r. clear. induction lines1 as [|l ls IH]; [reflexivity | exact IH].
  - rewrite forallb_app. cbn [forallb is_call negb andb].
    rewrite andb_true_r. clear. induction lines1 as [|l ls IH]; [reflexivity | exact IH].
Qed.

Lemma flat_map_map {A B C : Type} (f : B -> list C) (g : A -> B) xs :
  flat_map f (map g xs) = flat_map (fun x => f (g x)) xs.
Proof. induction xs as [|x xs IH]; [reflexivity | cbn; rewrite IH; reflexivity]. Qed.

Lemma flat_map_ext_in {A B : Type} (f g : A -> list B) xs :
  (forall x, In x xs -> f x = g x) -> flat_map f xs = flat_map g xs.
Proof.
  induction xs as [|x xs IH]; intros H; [reflexivity|].
  cbn. rewrite (H x (or_introl eq_refl)), IH; [reflexivity|].
  intros y Hy. apply H. right. exact Hy.
Qed.

Lemma writes_flat_map {A : Type} (f : A -> list event) xs :
  writes (flat_map f xs) = flat_map (fun x => writes (f x)) xs.
Proof.
  induction xs as [|x xs IH]; [reflexivity|]. cbn [flat_map].
  rewrite writes_app, IH. reflexivity.
Qed.

Lemma prints_app l1 l2 : prints (l1 ++ l2) = (prints l1 ++ prints l2)%list.
Proof. unfold prints. apply flat_map_app. Qed.

Lemma prints_flat_map {A : Type} (f : A -> list event) xs :
  prints (flat_map f xs) = flat_map (fun x => prints (f x)) xs.
Proof.
  induction xs as [|x xs IH]; [reflexivity|]. cbn [flat_map].
  rewrite prints_app, IH. reflexivity.
Qed.

Lemma prints_calls l : forallb is_call l = true -> prints l = [].
Proof.
  induction l as [|ev l IH]; [reflexivity|]. cbn [forallb]. intros H.
  apply andb_prop in H. destruct H as [Hc Hl].
  destruct ev; try discriminate. cbn. apply IH. exact Hl.
Qed.

Lemma writes_lines {A : Type} (g : A -> string) xs :
  writes (map (fun x => Print (g x)) xs) = [].
Proof. induction xs as [|x xs IH]; [reflexivity | exact IH]. Qed.

Lemma prints_lines {A : Type} (g : A -> string) xs :
  prints (map (fun x => Print (g x)) xs) = map g xs.
Proof.
  induction xs as [|x xs IH]; [reflexivity|].
  cbn [map]. unfold prints in *. cbn [flat_map app]. rewrite IH. reflexivity.
Qed.

Lemma writes_report files : writes (report files) = [].
Proof. unfold report. rewrite writes_app, writes_lines. reflexivity. Qed.

Lemma prints_report files :
  prints (report files)
  = ([ ""; ("✅ Created " ++ str (Z.of_nat (List.length files)) ++ " OG images!")%string;
       ""; "Files created:" ] ++ map (fun f => ("   - " ++ basename f)%string) files)%list.
Proof. unfold report. rewrite prints_app, prints_lines. reflexivity. Qed.

Lemma run_healthy E key cfg :
  healthy E -> In (key, cfg) FORMATS ->
  create_og_image E key output_dir
  = ((og_draw_trace E cfg ++ saved E cfg)%list, Ok (og_path output_dir cfg)).
Proof.
  intros (Hf & Ht & Hs & Hp) Hin.
  rewrite (@create_og_image_draws E key cfg output_dir (conj Hf Ht) Hin).
  rewrite (finish_saves E cfg output_dir (Hs _ _) (Hp _)). reflexivity.
Qed.

Lemma healthy_completes E key :
  healthy E -> In key (map fst FORMATS) -> completes E key.
Proof.
  intros H Hk. apply in_map_iff in Hk. destruct Hk as ([k cfg] & <- & Hin).
  exists (og_path output_dir cfg). cbn [fst]. rewrite (run_healthy H Hin). reflexivity.
Qed.

Lemma healthy_traces E :
  healthy E ->
  flat_map (run_trace E) (map fst FORMATS)
  = flat_map (fun kc => (og_draw_trace E (snd kc) ++ saved E (snd kc))%list) FORMATS.
Proof.
  intros H. rewrite flat_map_map. apply flat_map_ext_in.
  intros [k cfg] Hin. unfold run_trace. cbn [fst snd]. rewrite (run_healthy H Hin). reflexivity.
Qed.

Lemma healthy_paths E :
  healthy E ->
  map (run_path E) (map fst FORMATS) = map (fun kc => og_path output_dir (snd kc)) FORMATS.
Proof.
  intros H. rewrite map_map. apply map_ext_in.
  intros [k cfg] Hin. unfold run_path, value. cbn [fst snd]. rewrite (run_healthy H Hin). reflexivity.
Qed.

(** X18: The whole batch in a healthy environment: it returns normally, writes
    the five files of the table in table order, each an RGB image of 1200
    by 630, and prints the banner, one line per file, the count and the
    list of names. *)
Theorem main_outputs E :
  healthy E ->
  snd (main E) = Ok tt
  /\ map fst (writes (fst (main E)))
     = [ "/home/claude/Tournament-main-15/og-image.png";
         "/home/claude/Tournament-main-15/og-image-americano.png";
         "/home/claude/Tournament-main-15/og-image-mexicano.png";
         "/home/claude/Tournament-main-15/og-image-mix.png";
         "/home/claude/Tournament-main-15/og-image-team.png" ]
  /\ Forall (fun w => shape (snd w) = (RGB, 1200, 630)) (writes (fst (main E)))
  /\ prints (fst (main E))
     = [ "🎨 Generating OG images for social sharing...";
         "   Size: 1200x630px";
         "";
         "✅ Created og-image.png";
         "✅ Created og-image-americano.png";
         "✅ Created og-image-mexicano.png";
         "✅ Created og-image-mix.png";
         "✅ Created og-image-team.png";
         "";
         "✅ Created 5 OG images!";
         "";
         "Files created:";
         "   - og-image.png";
         "   - og-image-americano.png";
         "   - og-image-mexicano.png";
         "   - og-image-mix.png";
         "   - og-image-team.png" ].
Proof.
  intros H.
  assert (M : main E
              = ((banner ++ flat_map (run_trace E) (map fst FORMATS)
                    ++ report (map (run_path E) (map fst FORMATS)))%list, Ok tt)).
  { pose proof (proj2 (proj2 (proj2 H))) as Hp.
    pose proof (fun k => @healthy_completes E k H) as Hc.
    batch_completes E Hp Hc. }
  rewrite M, (healthy_traces H), (healthy_paths H). cbn [fst snd].
  split; [reflexivity|].
  assert (W : writes (banner ++ flat_map (fun kc => og_draw_trace E (snd kc) ++ saved E (snd kc)) FORMATS
                      ++ report (map (fun kc => og_path output_dir (snd kc)) FORMATS))%list
              = map (fun kc => (og_path output_dir (snd kc), og_image E (snd kc))) FORMATS).
  { rewrite !writes_app, writes_report, app_nil_r, writes_flat_map.
    change (writes banner) with (@nil (string * image)). cbn [app].
    rewrite <- flat_map_single. apply flat_map_ext_in. intros kc _.
    rewrite writes_app, (writes_calls _ (og_draw_trace_calls E (snd kc))). reflexivity. }
  rewrite W. split; [|split].
  - rewrite map_map. reflexivity.
  - apply Forall_forall. intros w Hw. apply in_map_iff in Hw.
    destruct Hw as (kc & <- & _). apply shape_og_image.
  - rewrite !prints_app, prints_report, prints_flat_map.
    rewrite (flat_map_ext_in
               (fun kc => prints (og_draw_trace E (snd kc) ++ saved E (snd kc))%list)
               (fun kc => [("✅ Created " ++ filename (snd kc))%string]) FORMATS).
    + reflexivity.
    + intros kc _.
      rewrite prints_app, (prints_calls _ (og_draw_trace_calls E (snd kc))). reflexivity.
Qed.

(* ===================================================================== *)
(** * Errors and edge cases: facts                                        *)
(* ===================================================================== *)

(** ** [get_font]: errors other than [OSError] *)

(** X2: An error of [truetype] that is not an [OSError] is not caught: it
    leaves [get_font] at the candidate that raised it, and no later
    candidate and no default font is tried. *)
Theorem get_font_propagates E size bold e :
  is_OSError e = false ->
  (truetype_error E (dejavu bold) size = Some e ->
   get_font E size bold = ([Call (CTruetype (dejavu bold) size)], Raise e))
  /\ (missing E (dejavu bold) size ->
      truetype_error E (liberation bold) size = Some e ->
      get_font E size bold
      = ([Call (CTruetype (dejavu bold) size); Call (CTruetype (liberation bold) size)],
         Raise e)).
Proof.
  intros He. unfold get_font. rewrite font_names_families. cbn [try_fonts].
  split.
  - intros Hd. rewrite (@truetype_fails _ _ _ _ Hd).
    unfold try_except_OSError. rewrite He. reflexivity.
  - intros Hd Hl.
    rewrite (@truetype_fails _ _ _ _ Hd), (@truetype_fails _ _ _ _ Hl).
    unfold try_except_OSError. cbn [is_OSError]. rewrite He. reflexivity.
Qed.

Lemma get_font_propagates_witness :
  is_OSError ValueError = false
  /\ get_font corrupt_fonts_env 72 true
     = ([Call (CTruetype (dejavu true) 72)], Raise ValueError).
Proof.
  split; [reflexivity|].
  apply (proj1 (@get_font_propagates corrupt_fonts_env 72 true ValueError eq_refl)).
  reflexivity.
Defined.

(** ** [hex_to_rgb]: what it rejects and what it lets through *)

Lemma int16_error s e : PyStr.int16 s = Raise e -> e = ValueError.
Proof.
  unfold PyStr.int16.
  destruct (match PyStr.strip_space s with
            | String "+"%char s' => (false, s')
            | String "-"%char s' => (true, s')
            | _ => (false, PyStr.strip_space s)
            end) as [neg s'] eqn:Hs.
  cbv zeta.
  destruct (PyStr.strip_space s) as [|c t]; [|destruct c as [[] [] [] [] [] [] [] []]];
    try (injection Hs as <- <-);
    destruct (PyStr.digits (PyStr.skip_prefix _)); intros H; try discriminate;
    injection H as <-; reflexivity.
Qed.

Lemma hex_to_rgb_error s e : hex_to_rgb s = Raise e -> e = ValueError.
Proof.
  unfold hex_to_rgb, rbind.
  destruct (PyStr.int16 (PyStr.slice 0 2 _)) eqn:H1; [|intros H; injection H as <-; eapply int16_error; exact H1].
  destruct (PyStr.int16 (PyStr.slice 2 2 _)) eqn:H2; [|intros H; injection H as <-; eapply int16_error; exact H2].
  destruct (PyStr.int16 (PyStr.slice 4 2 _)) eqn:H3; [|intros H; injection H as <-; eapply int16_error; exact H3].
  discriminate.
Qed.

Lemma slice_short s : (String.length s <= 4)%nat -> PyStr.slice 4 2 s = "".
Proof.
  intros H. unfold PyStr.slice.
  destruct s as [|a [|b [|c [|d [|e s]]]]]; try reflexivity. cbn in H. lia.
Qed.

(** X3: Fewer than five characters after the leading ['#']s: [ValueError],
    so the three-digit shorthand is rejected. *)
Theorem hex_to_rgb_too_short s :
  (String.length (PyStr.lstrip "#" s) <= 4)%nat -> hex_to_rgb s = Raise ValueError.
Proof.
  intros H. destruct (hex_to_rgb s) as [c | e] eqn:Hr.
  - exfalso. unfold hex_to_rgb, rbind in Hr. rewrite (slice_short _ H) in Hr.
    destruct (PyStr.int16 (PyStr.slice 0 2 _)); [|discriminate].
    destruct (PyStr.int16 (PyStr.slice 2 2 _)); [|discriminate].
    discriminate.
  - rewrite (hex_to_rgb_error _ Hr). reflexivity.
Qed.

Lemma hex_to_rgb_too_short_witness :
  (String.length (PyStr.lstrip "#" "#FFF") <= 4)%nat /\ hex_to_rgb "#FFF" = Raise ValueError.
Proof.
  split; [cbn; lia|]. apply (@hex_to_rgb_too_short "#FFF"). cbn. lia.
Defined.

Lemma substring_0_0 s : substring 0 0 s = "".
Proof. destruct s; reflexivity. Qed.

(** X4: Whatever follows the six digits is ignored. *)
Theorem hex_to_rgb_ignores_tail n a b c d e f rest :
  forallb PyStr.is_hex [a; b; c; d; e; f] = true ->
  hex_to_rgb (hashes n ++ six a b c d e f ++ rest)
  = Ok (hex_pair a b, hex_pair c d, hex_pair e f).
Proof.
  intros H. simpl in H.
  repeat (apply andb_prop in H; destruct H as [? H]).
  destruct (int16_pair a b) as [E1 _]; try assumption.
  destruct (int16_pair c d) as [E2 _]; try assumption.
  destruct (int16_pair e f) as [E3 _]; try assumption.
  unfold hex_to_rgb. rewrite lstrip_hashes.
  unfold six. cbn [append PyStr.lstrip]. rewrite (is_hex_not_hash a) by assumption.
  unfold PyStr.slice. cbn [substring]. rewrite !substring_0_0, E1, E2, E3. reflexivity.
Qed.

Lemma hex_to_rgb_ignores_tail_witness :
  forallb PyStr.is_hex ["2"; "5"; "6"; "3"; "E"; "B"]%char = true
  /\ hex_to_rgb "#2563EB80 and more" = Ok (37, 99, 235).
Proof.
  split; [reflexivity|].
  apply (@hex_to_rgb_ignores_tail 1 "2" "5" "6" "3" "E" "B" "80 and more"). reflexivity.
Defined.

Lemma short_check_all :
  forallb (fun a => single_check a && forallb (short_check a) all_ascii) all_ascii = true.
Proof. vm_compute. reflexivity. Qed.

Lemma substring_length i n s : (String.length (substring i n s) <= n)%nat.
Proof.
  revert i n. induction s as [|c s IH]; intros i n.
  - destruct i, n; cbn; lia.
  - destruct i as [|i].
    + destruct n as [|n]; cbn; [lia|]. specialize (IH 0%nat n). lia.
    + cbn. apply IH.
Qed.

Lemma int16_short_range s v :
  (String.length s <= 2)%nat -> PyStr.int16 s = Ok v -> channel_range v.
Proof.
  intros Hl Hv. pose proof short_check_all as H. rewrite forallb_forall in H.
  destruct s as [|a [|b [|c s]]].
  - discriminate Hv.
  - specialize (H a (all_ascii_complete a)). apply andb_prop in H. destruct H as [H _].
    unfold single_check in H. rewrite Hv in H.
    apply andb_prop in H. destruct H as [L U]. apply Z.leb_le in L, U. split; assumption.
  - specialize (H a (all_ascii_complete a)). apply andb_prop in H. destruct H as [_ H].
    rewrite forallb_forall in H. specialize (H b (all_ascii_complete b)).
    unfold short_check in H. rewrite Hv in H.
    apply andb_prop in H. destruct H as [L U]. apply Z.leb_le in L, U. split; assumption.
  - cbn in Hl. lia.
Qed.

Lemma grey_check_all : forallb (fun i => grey_check (i - 15)) (range 271) = true.
Proof. vm_compute. reflexivity. Qed.

Lemma hex_to_rgb_grey v : channel_range v -> hex_to_rgb (grey v) = Ok (v, v, v).
Proof.
  intros Hv. pose proof grey_check_all as H. rewrite forallb_forall in H.
  assert (Hin : In (v + 15) (range 271)) by (apply in_range; unfold channel_range in Hv; lia).
  specialize (H _ Hin). replace (v + 15 - 15) with v in H by lia.
  unfold grey_check in H. destruct (hex_to_rgb (grey v)) as [[[r g] b] | e]; [|discriminate H].
  apply andb_prop in H. destruct H as [H Hb]. apply andb_prop in H. destruct H as [Hr Hg].
  apply Z.eqb_eq in Hr, Hg, Hb. subst. reflexivity.
Qed.

(** X5: The parser alone does not keep a channel in 0..255.  On a string
    of code points below 256 it raises [ValueError] and nothing else, or
    it returns channels between -15 and 255; and every value of that
    range is returned for some string, the negative ones because a sign
    is read too: ["-F"] is -15. *)
Theorem hex_to_rgb_range :
  (forall s,
     match hex_to_rgb s with
     | Ok (r, g, b) => channel_range r /\ channel_range g /\ channel_range b
     | Raise e => e = ValueError
     end)
  /\ (forall v, channel_range v -> hex_to_rgb (grey v) = Ok (v, v, v))
  /\ hex_to_rgb "#-F+1FF" = Ok (-15, 1, 255).
Proof.
  split; [|split; [exact hex_to_rgb_grey | reflexivity]]. intros s.
  destruct (hex_to_rgb s) as [[[r g] b] | e] eqn:H; [|apply (hex_to_rgb_error _ H)].
  unfold hex_to_rgb, rbind, PyStr.slice in H.
  destruct (PyStr.int16 (substring 0 2 _)) as [r'|] eqn:H1; [|discriminate].
  destruct (PyStr.int16 (substring 2 2 _)) as [g'|] eqn:H2; [|discriminate].
  destruct (PyStr.int16 (substring 4 2 _)) as [b'|] eqn:H3; [|discriminate].
  injection H as <- <- <-.
  repeat split;
    first [ apply (int16_short_range _ (substring_length _ _ _) H1)
          | apply (int16_short_range _ (substring_length _ _ _) H2)
          | apply (int16_short_range _ (substring_length _ _ _) H3) ].
Qed.

(** The separators 28 to 31 are not white space for [int()]. *)
Lemma int16_separator : PyStr.int16 (String (ascii_of_nat 28) "1") = Raise ValueError.
Proof. reflexivity. Qed.

(* ===================================================================== *)
(** * Sample runs                                                         *)
(* ===================================================================== *)

(** ** Sample environments *)

Lemma sample_env_healthy : healthy sample_env.
Proof.
  unfold healthy, stdout_ok. split; [|split; [|split]]; try (intros; reflexivity).
  intros p s e H. cbn in H. injection H as <-. reflexivity.
Qed.

Lemma full_disk_env_renders : renders full_disk_env.
Proof.
  split.
  - intros p s e H. cbn in H. injection H as <-. reflexivity.
  - reflexivity.
Qed.

Lemma ascii_stdout_env_renders : renders ascii_stdout_env.
Proof.
  split.
  - intros p s e H. cbn in H. injection H as <-. reflexivity.
  - reflexivity.
Qed.

Lemma unwritable_env_renders : renders unwritable_env.
Proof.
  split.
  - intros p s e H. cbn in H. injection H as <-. reflexivity.
  - reflexivity.
Qed.

Lemma entry_in n : (n < 5)%nat -> In (fst (entry n), snd (entry n)) FORMATS.
Proof.
  intros H. rewrite <- surjective_pairing. apply nth_In. exact H.
Qed.

Lemma completes_when_saves E key cfg :
  renders E -> In (key, cfg) FORMATS ->
  save_result E (og_path output_dir cfg) (og_image E cfg) = Saved ->
  print_error E ("✅ Created " ++ filename cfg) = None ->
  completes E key.
Proof.
  intros H Hin Hs Hp. exists (og_path output_dir cfg).
  rewrite (@create_og_image_draws E key cfg output_dir H Hin).
  rewrite (finish_saves E cfg output_dir Hs Hp). reflexivity.
Qed.

Lemma fails_when_save_fails E key cfg e :
  renders E -> In (key, cfg) FORMATS ->
  save_exn (save_result E (og_path output_dir cfg) (og_image E cfg)) = Some e ->
  snd (create_og_image E key output_dir) = Raise e.
Proof.
  intros H Hin He.
  rewrite (@create_og_image_draws E key cfg output_dir H Hin).
  rewrite (finish_fails E cfg output_dir He). reflexivity.
Qed.

(** ** Witnesses *)

Lemma create_og_image_runs_witness :
  create_og_image sample_env (fst (entry 1)) output_dir
  = (og_trace sample_env (snd (entry 1)) output_dir, Ok (og_path output_dir (snd (entry 1)))).
Proof.
  apply (@create_og_image_runs sample_env (fst (entry 1)) (snd (entry 1)) output_dir
           sample_env_healthy (entry_in (n := 1) ltac:(lia))).
Defined.

Lemma create_og_image_output_witness :
  snd (create_og_image sample_env (fst (entry 0)) output_dir)
  = Ok (path_join output_dir (filename (snd (entry 0))))
  /\ exists img,
       writes (fst (create_og_image sample_env (fst (entry 0)) output_dir))
       = [(path_join output_dir (filename (snd (entry 0))), img)]
       /\ shape img = (RGB, 1200, 630).
Proof.
  apply (@create_og_image_output sample_env (fst (entry 0)) (snd (entry 0)) output_dir
           sample_env_healthy (entry_in (n := 0) ltac:(lia))).
Defined.

Lemma create_og_image_save_fails_witness :
  create_og_image full_disk_env (fst (entry 2)) output_dir
  = ((og_draw_trace full_disk_env (snd (entry 2))
        ++ [ Call (CSave "/home/claude/Tournament-main-15/og-image-mexicano.png");
             Damage "/home/claude/Tournament-main-15/og-image-mexicano.png" ])%list,
     Raise OSError)
  /\ writes (fst (create_og_image full_disk_env (fst (entry 2)) output_dir)) = []
  /\ damages (fst (create_og_image full_disk_env (fst (entry 2)) output_dir))
     = [ "/home/claude/Tournament-main-15/og-image-mexicano.png" ]
  /\ forall line,
       ~ In (Print line) (fst (create_og_image full_disk_env (fst (entry 2)) output_dir)).
Proof.
  apply (@create_og_image_save_fails full_disk_env (fst (entry 2)) (snd (entry 2)) output_dir
           OSError full_disk_env_renders (entry_in (n := 2) ltac:(lia))).
  reflexivity.
Defined.

Lemma create_og_image_unreported_witness :
  create_og_image ascii_stdout_env (fst (entry 0)) output_dir
  = ((og_draw_trace ascii_stdout_env (snd (entry 0))
        ++ [ Call (CSave "/home/claude/Tournament-main-15/og-image.png");
             Write "/home/claude/Tournament-main-15/og-image.png"
               (og_image ascii_stdout_env (snd (entry 0)));
             PrintFails "✅ Created og-image.png" ])%list,
     Raise UnicodeEncodeError)
  /\ writes (fst (create_og_image ascii_stdout_env (fst (entry 0)) output_dir))
     = [ ("/home/claude/Tournament-main-15/og-image.png",
          og_image ascii_stdout_env (snd (entry 0))) ].
Proof.
  apply (@create_og_image_unreported ascii_stdout_env (fst (entry 0)) (snd (entry 0)) output_dir
           UnicodeEncodeError ascii_stdout_env_renders (entry_in (n := 0) ltac:(lia)));
    reflexivity.
Defined.

Lemma main_banner_fails_witness :
  main ascii_stdout_env
  = ([PrintFails "🎨 Generating OG images for social sharing..."], Raise UnicodeEncodeError)
  /\ writes (fst (main ascii_stdout_env)) = []
  /\ forallb (fun ev => negb (is_call ev)) (fst (main ascii_stdout_env)) = true.
Proof.
  apply (@main_banner_fails ascii_stdout_env []
           "🎨 Generating OG images for social sharing..." ["   Size: 1200x630px"; ""]
           UnicodeEncodeError).
  - reflexivity.
  - intros l [].
  - reflexivity.
Defined.

Lemma create_og_image_unknown_key_witness :
  ~ In "doubles" (map fst FORMATS)
  /\ create_og_image sample_env "doubles" output_dir = ([], Raise KeyError).
Proof.
  assert (H : ~ In "doubles" (map fst FORMATS)).
  { cbn. intros C. repeat (destruct C as [C | C]; [discriminate C|]). exact C. }
  split; [exact H|]. apply (@create_og_image_unknown_key sample_env "doubles" output_dir H).
Defined.

Lemma accents_opaque_witness :
  exists img,
    writes (fst (create_og_image sample_env (fst (entry 4)) output_dir))
    = [(path_join output_dir (filename (snd (entry 4))), img)]
    /\ forall x y, 0 <= x < WIDTH -> 0 <= y < HEIGHT ->
         lines_cover sample_env 4 accent_lines x y = true ->
         getpixel img x y = Some white.
Proof.
  apply (@accents_opaque sample_env (fst (entry 4)) (snd (entry 4)) output_dir
           sample_env_healthy (entry_in (n := 4) ltac:(lia))).
Defined.

Lemma decorations_opaque_witness :
  exists im',
    add_decorative_elements sample_env (black_canvas 1200 630) 1200 630
    = (decor_calls 1200 630, Ok im')
    /\ shape im' = shape (black_canvas 1200 630)
    /\ forall x y, in_image (black_canvas 1200 630) x y = true ->
         im_px im' x y
         = if decor_cover sample_env 1200 630 x y then white
           else im_px (black_canvas 1200 630) x y.
Proof.
  apply (@decorations_opaque sample_env (black_canvas 1200 630) 1200 630);
    [lia | lia | reflexivity].
Defined.

Lemma decorations_zero_size_witness :
  add_decorative_elements sample_env (black_canvas 40 0) 40 0 = ([], Raise ZeroDivisionError).
Proof.
  apply (@decorations_zero_size sample_env (black_canvas 40 0) 40 0). right. reflexivity.
Defined.

Lemma main_outputs_witness :
  snd (main sample_env) = Ok tt
  /\ map fst (writes (fst (main sample_env)))
     = [ "/home/claude/Tournament-main-15/og-image.png";
         "/home/claude/Tournament-main-15/og-image-americano.png";
         "/home/claude/Tournament-main-15/og-image-mexicano.png";
         "/home/claude/Tournament-main-15/og-image-mix.png";
         "/home/claude/Tournament-main-15/og-image-team.png" ]
  /\ Forall (fun w => shape (snd w) = (RGB, 1200, 630)) (writes (fst (main sample_env)))
  /\ prints (fst (main sample_env))
     = [ "🎨 Generating OG images for social sharing...";
         "   Size: 1200x630px";
         "";
         "✅ Created og-image.png";
         "✅ Created og-image-americano.png";
         "✅ Created og-image-mexicano.png";
         "✅ Created og-image-mix.png";
         "✅ Created og-image-team.png";
         "";
         "✅ Created 5 OG images!";
         "";
         "Files created:";
         "   - og-image.png";
         "   - og-image-americano.png";
         "   - og-image-mexicano.png";
         "   - og-image-mix.png";
         "   - og-image-team.png" ].
Proof. apply (@main_outputs sample_env sample_env_healthy). Defined.

Lemma main_completes_witness :
  main sample_env
  = ((banner ++ flat_map (run_trace sample_env) (map fst FORMATS)
        ++ report (map (run_path sample_env) (map fst FORMATS)))%list, Ok tt).
Proof.
  apply (@main_completes sample_env).
  - intros line. reflexivity.
  - intros k Hk. apply healthy_completes; [apply sample_env_healthy | exact Hk].
Defined.

Lemma main_stops_at_first_failure_witness :
  main unwritable_env
  = ((banner ++ flat_map (run_trace unwritable_env) (["main"; "americano"] ++ ["mexicano"]))%list,
     Raise OSError).
Proof.
  apply (@main_stops_at_first_failure unwritable_env ["main"; "americano"] "mexicano"
           ["mix"; "team"] OSError).
  - intros line _. reflexivity.
  - reflexivity.
  - intros k [<- | [<- | []]].
    + apply (@completes_when_saves unwritable_env "main" (snd (entry 0)) unwritable_env_renders
               (entry_in (n := 0) ltac:(lia))); reflexivity.
    + apply (@completes_when_saves unwritable_env "americano" (snd (entry 1))
               unwritable_env_renders (entry_in (n := 1) ltac:(lia))); reflexivity.
  - apply (@fails_when_save_fails unwritable_env "mexicano" (snd (entry 2)) OSError
             unwritable_env_renders (entry_in (n := 2) ltac:(lia)) eq_refl).
Defined.

(* ===================================================================== *)
(** * The gradient: errors and the other direction                        *)
(* ===================================================================== *)

(** ** [create_gradient]: errors *)

(** X6: The canvas is allocated and its drawing handle made before the
    colours are read: a colour that does not parse raises after the
    [Image.new] and the [ImageDraw.Draw] call, and nothing is drawn,
    whatever the direction. *)
Theorem create_gradient_bad_colour E w h color1 color2 direction e :
  0 <= w -> 0 <= h ->
  hex_to_rgb color1 = Raise e
  \/ (exists A, hex_to_rgb color1 = Ok A) /\ hex_to_rgb color2 = Raise e ->
  create_gradient E w h color1 color2 direction
  = ([Call (CNew RGB w h); Call (CDraw RGB)], Raise e).
Proof.
  intros Hw Hh H. unfold create_gradient, Image_new, ImageDraw_Draw.
  rewrite (proj2 (Z.ltb_ge w 0) Hw), (proj2 (Z.ltb_ge h 0) Hh).
  destruct H as [H1 | [[[[r g] b] H1] H2]]; rewrite H1; [reflexivity|].
  rewrite H2. reflexivity.
Qed.

Lemma create_gradient_bad_colour_witness :
  create_gradient sample_env 4 2 "#2563EB" "#FFF" "horizontal"
  = ([Call (CNew RGB 4 2); Call (CDraw RGB)], Raise ValueError).
Proof.
  apply (@create_gradient_bad_colour sample_env 4 2 "#2563EB" "#FFF" "horizontal" ValueError);
    [lia | lia |].
  right. split; [exists (37, 99, 235); reflexivity | reflexivity].
Defined.

(** X7: A canvas of width zero: no column, no division, an empty image. *)
Theorem create_gradient_zero_width E h color1 color2 direction A B :
  0 <= h -> hex_to_rgb color1 = Ok A -> hex_to_rgb color2 = Ok B ->
  create_gradient E 0 h color1 color2 direction
  = ([Call (CNew RGB 0 h); Call (CDraw RGB)], Ok (black_canvas 0 h)).
Proof.
  intros Hh HA HB. unfold create_gradient, Image_new, ImageDraw_Draw.
  rewrite (proj2 (Z.ltb_ge h 0) Hh), HA, HB.
  destruct A as [[r1 g1] b1]. destruct B as [[r2 g2] b2].
  cbn [Z.ltb Z.compare orb emit bind ret lift app im_mode].
  change (range 0) with (@nil Z). cbn [for_each].
  destruct (direction =? "horizontal")%string; reflexivity.
Qed.

Lemma create_gradient_zero_width_witness :
  create_gradient sample_env 0 630 "#2563EB" "#7C3AED" "horizontal"
  = ([Call (CNew RGB 0 630); Call (CDraw RGB)], Ok (black_canvas 0 630)).
Proof.
  apply (@create_gradient_zero_width sample_env 630 "#2563EB" "#7C3AED" "horizontal"
           (37, 99, 235) (124, 58, 237)); [lia | reflexivity | reflexivity].
Defined.

(** ** [create_gradient], any other direction *)

Lemma fold_left_flat_map {A B S : Type} (f : S -> B -> S) (g : A -> list B) xs : forall s,
  fold_left f (flat_map g xs) s = fold_left (fun s x => fold_left f (g x) s) xs s.
Proof.
  induction xs as [|x xs IH]; intros s; [reflexivity|].
  cbn [flat_map fold_left]. rewrite fold_left_app. apply IH.
Qed.

Lemma fold_left_map {A B S : Type} (f : S -> B -> S) (g : A -> B) xs : forall s,
  fold_left f (map g xs) s = fold_left (fun s x => f s (g x)) xs s.
Proof. induction xs as [|x xs IH]; intros s; [reflexivity | apply IH]. Qed.

Lemma flat_map_flat_map_single {A B C : Type} (g : A -> list B) (f : B -> C) xs :
  flat_map (fun x => flat_map (fun y => [f y]) (g x)) xs = map f (flat_map g xs).
Proof.
  induction xs as [|x xs IH]; [reflexivity|].
  cbn [flat_map]. rewrite map_app, IH, flat_map_single. reflexivity.
Qed.

Lemma create_gradient_diagonal_run E w h color1 color2 direction A B :
  0 <= w -> 0 <= h ->
  hex_to_rgb color1 = Ok A -> hex_to_rgb color2 = Ok B ->
  (direction =? "horizontal")%string = false ->
  create_gradient E w h color1 color2 direction
  = (diagonal_calls A B w h, Ok (diagonal_image A B w h)).
Proof.
  intros Hw Hh HA HB Hd. unfold create_gradient, Image_new, ImageDraw_Draw.
  assert (Hneg : (w <? 0) || (h <? 0) = false).
  { apply orb_false_intro; apply Z.ltb_ge; assumption. }
  rewrite Hneg, HA, HB, Hd.
  destruct A as [[r1 g1] b1]. destruct B as [[r2 g2] b2].
  cbn [emit bind ret lift app im_mode].
  unfold diagonal_calls, diagonal_image, grid.
  rewrite <- flat_map_flat_map_single with
    (f := fun p => Call (CPoint p (diagonal_fill (r1, g1, b1) (r2, g2, b2) w h (fst p + snd p)))).
  rewrite fold_left_flat_map.
  rewrite (for_each_runs
             (fun x => flat_map
                         (fun y => [Call (CPoint y (diagonal_fill (r1, g1, b1) (r2, g2, b2) w h
                                                      (fst y + snd y)))])
                         (map (fun y => (x, y)) (range h)))
             (fun s x => fold_left (paint_point (diagonal_fill (r1, g1, b1) (r2, g2, b2) w h))
                           (map (fun y => (x, y)) (range h)) s)).
  - reflexivity.
  - intros x s. rewrite flat_map_map, fold_left_map.
    apply (for_each_runs
             (fun y => [Call (CPoint (x, y) (diagonal_fill (r1, g1, b1) (r2, g2, b2) w h (x + y)))])
             (fun im y => paint_point (diagonal_fill (r1, g1, b1) (r2, g2, b2) w h) im (x, y))).
    intros y im. reflexivity.
Qed.

Lemma fold_points_px f pts : forall im a b,
  in_image im a b = true ->
  im_px (fold_left (paint_point f) pts im) a b
  = if existsb (fun p => (a =? fst p) && (b =? snd p)) pts
    then ink (im_mode im) (f (a + b)) else im_px im a b.
Proof.
  induction pts as [|p pts IH]; intros im a b Hin; cbn [fold_left existsb].
  - reflexivity.
  - rewrite IH by exact Hin.
    change (im_mode (paint_point f im p)) with (im_mode im).
    change (im_px (paint_point f im p) a b)
      with (if in_image im a b && ((a =? fst p) && (b =? snd p))
            then ink (im_mode im) (f (fst p + snd p)) else im_px im a b).
    rewrite Hin. cbn [andb].
    destruct (Z.eqb_spec a (fst p)) as [-> | Na]; cbn [andb orb]; [|reflexivity].
    destruct (Z.eqb_spec b (snd p)) as [-> | Nb]; cbn [orb]; [|reflexivity].
    match goal with |- context [existsb ?g pts] => destruct (existsb g pts) end; reflexivity.
Qed.

Lemma in_grid w h a b : 0 <= a < w -> 0 <= b < h ->
  existsb (fun p => (a =? fst p) && (b =? snd p)) (grid w h) = true.
Proof.
  intros Ha Hb. apply existsb_exists. exists (a, b). split.
  - unfold grid. apply in_flat_map. exists a. split; [apply in_range; exact Ha|].
    apply in_map, in_range. exact Hb.
  - cbn [fst snd]. rewrite !Z.eqb_refl. reflexivity.
Qed.

(** X8: Any direction other than ['horizontal'] gives the diagonal gradient:
    the pixel at (x, y) is the interpolation at ratio (x + y) / (width +
    height), so it is the same along every anti-diagonal. *)
Theorem create_gradient_diagonal E w h color1 color2 direction A B :
  0 < w -> 0 < h ->
  hex_to_rgb color1 = Ok A -> hex_to_rgb color2 = Ok B ->
  rgb_ok A -> rgb_ok B ->
  (direction =? "horizontal")%string = false ->
  exists img,
    snd (create_gradient E w h color1 color2 direction) = Ok img
    /\ shape img = (RGB, w, h)
    /\ forall x y, 0 <= x < w -> 0 <= y < h ->
         getpixel img x y = Some (gradient_pixel A B (x + y) (w + h)).
Proof.
  intros Hw Hh HA HB OA OB Hd.
  rewrite (@create_gradient_diagonal_run E w h color1 color2 direction A B)
    by (assumption || lia).
  cbn [snd]. exists (diagonal_image A B w h).
  assert (Sh : shape (diagonal_image A B w h) = (RGB, w, h)).
  { unfold diagonal_image. rewrite shape_fold; reflexivity. }
  split; [reflexivity|]. split; [exact Sh|].
  intros x y Hx Hy. destruct (shape_inv Sh) as (_ & Iw & Ih).
  assert (Hin : in_image (black_canvas w h) x y = true).
  { unfold in_image, black_canvas. cbn.
    repeat (apply andb_true_intro; split); first [apply Z.leb_le | apply Z.ltb_lt]; lia. }
  unfold getpixel.
  replace (in_image (diagonal_image A B w h) x y) with true
    by (symmetry; unfold in_image in *; rewrite Iw, Ih; exact Hin).
  f_equal. unfold diagonal_image.
  rewrite fold_points_px by exact Hin.
  rewrite in_grid by assumption.
  unfold diagonal_fill. cbn [im_mode black_canvas].
  apply ink_column_fill; try assumption. lia.
Qed.

Lemma create_gradient_diagonal_witness :
  exists img,
    snd (create_gradient sample_env 3 2 "#2563EB" "#7C3AED" "vertical") = Ok img
    /\ shape img = (RGB, 3, 2)
    /\ forall x y, 0 <= x < 3 -> 0 <= y < 2 ->
         getpixel img x y = Some (gradient_pixel (37, 99, 235) (124, 58, 237) (x + y) (3 + 2)).
Proof.
  apply (@create_gradient_diagonal sample_env 3 2 "#2563EB" "#7C3AED" "vertical"
           (37, 99, 235) (124, 58, 237));
    first [reflexivity | unfold rgb_ok, channel_ok; lia].
Defined.

(* ===================================================================== *)
(** * The float model on samples                                          *)
(* ===================================================================== *)

(** The float model against the Standard Library's binary64 operations,
    on every thirteenth column of the red channel of the first gradient,
    on a width where floats differ from exact arithmetic, and on a
    falling channel. *)
Lemma float_model_sample :
  forallb (fun i => agrees_with_SpecFloat 37 124 1200 (13 * i)) (range 93) = true
  /\ forallb (agrees_with_SpecFloat 0 49 49) (range 49) = true
  /\ forallb (agrees_with_SpecFloat 239 220 7) (range 7) = true.
Proof. repeat split; vm_compute; reflexivity. Qed.

(** In floating point the interpolation can fall just below an integer
    that exact arithmetic reaches: column 1 of 49 from 0 to 49. *)
Lemma float_below_exact :
  column_channel 0 49 1 49 = 0 /\ (exact_lerp 0 49 1 49 == 1)%Q.
Proof. split; vm_compute; reflexivity. Qed.
